(** * google_nest_sdm.event_media: the per-device event cache

    A shallow embedding of [src/google_nest_sdm/event_media.py]:
    [CachePolicy], [Media], [EventMedia] and [EventMediaManager] with its
    [OrderedDict] of recent events, followed by the properties of the
    cache that the specification states about it.

    Python integers are unbounded, so sizes and instants are [Z]; strings
    are [string]; [bytes] are lists of [Byte.byte].  A Python dictionary
    keeps its keys in insertion order and the manager relies on that
    order for eviction, so dictionaries are association lists read from
    the oldest entry (head) to the newest (last). *)

From Stdlib Require Import ZArith List String Bool Lia Permutation Sorted.
From Stdlib Require Import Strings.Byte.
Import ListNotations.

Local Open Scope string_scope.
Local Open Scope list_scope.
Local Open Scope Z_scope.

(* ================================================================== *)
(** ** Exceptions *)

Inductive exn : Type :=
| KeyError (key : string)
| TransportError (detail : string)
| ValueError (detail : string).

(** The outcome of a call that may raise. *)
Inductive result (A : Type) : Type :=
| Ok (a : A)
| Raise (e : exn).

Arguments Ok {A} a.
Arguments Raise {A} e.

(* ================================================================== *)
(** ** collections.OrderedDict with [str] keys *)

Module OrderedDict.

Section Dict.
Context {V : Type}.

Definition t := list (string * V).

Definition empty : t := [].

(** [d.get(key)] *)
Fixpoint get (key : string) (d : t) : option V :=
  match d with
  | [] => None
  | (k, v) :: rest => if String.eqb key k then Some v else get key rest
  end.

(** [key in d] *)
Definition contains (key : string) (d : t) : bool :=
  match get key d with Some _ => true | None => false end.

(** Assignment to a key that is present: the value changes, the position
    of the key does not. *)
Fixpoint replace (key : string) (v : V) (d : t) : t :=
  match d with
  | [] => []
  | (k, w) :: rest =>
      if String.eqb key k then (k, v) :: rest
      else (k, w) :: replace key v rest
  end.

(** [d[key] = v]: a new key goes to the end, an existing key keeps its
    place. *)
Definition setitem (key : string) (v : V) (d : t) : t :=
  if contains key d then replace key v d else d ++ [(key, v)].

(** [del d[key]] for a key that is present. *)
Fixpoint remove (key : string) (d : t) : t :=
  match d with
  | [] => []
  | (k, w) :: rest =>
      if String.eqb key k then rest else (k, w) :: remove key rest
  end.

(** [d.move_to_end(key)]; raises [KeyError] when the key is missing. *)
Definition move_to_end (key : string) (d : t) : result t :=
  match get key d with
  | Some v => Ok (remove key d ++ [(key, v)])
  | None => Raise (KeyError key)
  end.

(** [d.popitem(last=False)]; raises [KeyError] on an empty dictionary. *)
Definition popitem_first (d : t) : result ((string * V) * t) :=
  match d with
  | [] => Raise (KeyError "dictionary is empty")
  | kv :: rest => Ok (kv, rest)
  end.

(** [len(d)] *)
Definition len (d : t) : Z := Z.of_nat (List.length d).

Definition keys (d : t) : list string := List.map fst d.
Definition values (d : t) : list V := List.map snd d.

(** The last entry: the most recently inserted or moved one. *)
Definition newest (d : t) : option (string * V) := List.last (List.map Some d) None.

(** A dictionary holds each key once. *)
Definition wf (d : t) : Prop := NoDup (keys d).
End Dict.

Arguments t V : clear implicits.

End OrderedDict.

(* ================================================================== *)
(** ** Events, traits and media descriptors

    [event.py] and [camera_traits.py] are imported by the module but are
    not part of it; what the manager reads from them is modelled here. *)

(** Modelled from the spec: [ImageEventBase] of [event.py], section 3
    "EventRecord": event id, session id, trait-qualified event type,
    timestamp and expiration instant.  Instants are microseconds since the
    epoch. *)
Record ImageEventBase : Type := mkImageEventBase {
  event_id : string;
  event_session_id : string;
  event_type : string;
  timestamp : Z;
  expires_at : Z
}.

(** Modelled from the spec: [EventImageType] of [camera_traits.py],
    section 3 "imageType: enum{JPEG, CLIP_PREVIEW, ...}". *)
Inductive EventImageType : Type :=
| IMAGE
| CLIP_PREVIEW.

(** Modelled from the spec: [EventImage] of [camera_traits.py], section 6
    "Descriptor = {url, token|absent, imageType}". *)
Record EventImage : Type := mkEventImage {
  url : string;
  token : option string;
  event_image_type : EventImageType
}.

(** Modelled from the spec: [EventImageGenerator] of [camera_traits.py],
    section 6 "TraitCapability": the state of a trait is the event it saw
    last. *)
Record EventImageGenerator : Type := mkEventImageGenerator {
  last_event : option ImageEventBase
}.

(** Modelled from the spec: [EventImageGenerator.handle_event] of
    [camera_traits.py]: the trait records the event as its current one. *)
Definition handle_event (trait : EventImageGenerator) (event : ImageEventBase)
  : EventImageGenerator :=
  mkEventImageGenerator (Some event).

(** Modelled from the spec: [EventImageGenerator.active_event] of
    [camera_traits.py], glossary "Active event: an event whose expiration
    instant has not yet passed relative to now". *)
Definition active_event (now : Z) (trait : EventImageGenerator)
  : option ImageEventBase :=
  match last_event trait with
  | Some event => if expires_at event <? now then None else Some event
  | None => None
  end.

(** Modelled from the spec: [EventMessage.resource_update_events] of
    [event.py]: the events of a message keyed by event name, or [None]. *)
Record EventMessage : Type := mkEventMessage {
  resource_update_events : option (OrderedDict.t ImageEventBase)
}.

(* ================================================================== *)
(** ** CachePolicy, Media, EventMedia *)

Definition DEFAULT_CACHE_SIZE : Z := 2.

Record CachePolicy : Type := mkCachePolicy {
  event_cache_size : Z;
  prefetch : bool
}.

(** [CachePolicy()] *)
Definition CachePolicy_default : CachePolicy :=
  mkCachePolicy DEFAULT_CACHE_SIZE false.

Definition set_event_cache_size (value : Z) (p : CachePolicy) : CachePolicy :=
  mkCachePolicy value (prefetch p).

Definition set_prefetch (value : bool) (p : CachePolicy) : CachePolicy :=
  mkCachePolicy (event_cache_size p) value.

Record Media : Type := mkMedia {
  contents : list byte;
  media_event_image_type : EventImageType
}.

Record EventMedia : Type := mkEventMedia {
  em_event_id : string;
  em_event_type : string;
  em_event_timestamp : Z;
  em_media : Media
}.

(* ================================================================== *)
(** ** EventMediaManager *)

Record EventMediaManager : Type := mkEventMediaManager {
  _event_trait_map : OrderedDict.t EventImageGenerator;
  _cache_policy : CachePolicy;
  _data : OrderedDict.t ImageEventBase
}.

(** [EventMediaManager.__init__] *)
Definition EventMediaManager_init
  (event_trait_map : OrderedDict.t EventImageGenerator) : EventMediaManager :=
  mkEventMediaManager event_trait_map CachePolicy_default OrderedDict.empty.

Definition with_data (m : EventMediaManager) (d : OrderedDict.t ImageEventBase)
  : EventMediaManager :=
  mkEventMediaManager (_event_trait_map m) (_cache_policy m) d.

Definition with_traits (m : EventMediaManager)
  (tm : OrderedDict.t EventImageGenerator) : EventMediaManager :=
  mkEventMediaManager tm (_cache_policy m) (_data m).

Definition with_policy (m : EventMediaManager) (p : CachePolicy)
  : EventMediaManager :=
  mkEventMediaManager (_event_trait_map m) p (_data m).

(** Lines 152 to 154 on the cache alone: the event is assigned to its id
    and, when the cache is then over [size], the oldest entry is popped. *)
Definition cache_after_store (size : Z) (event : ImageEventBase)
  (d : OrderedDict.t ImageEventBase) : OrderedDict.t ImageEventBase :=
  let d1 := OrderedDict.setitem (event_id event) event d in
  if OrderedDict.len d1 >? size then List.tl d1 else d1.

(** The body of the [for] loop of [async_handle_events], for one
    [(event_name, event)] item; an event name outside the trait map is
    the [continue] branch and leaves the manager as it is. *)
Definition handle_item (m : EventMediaManager) (event_name : string)
  (event : ImageEventBase) : result EventMediaManager :=
  match OrderedDict.get event_name (_event_trait_map m) with
  | None => Ok m
  | Some trait =>
      let m1 :=
        with_traits m
          (OrderedDict.replace event_name (handle_event trait event)
             (_event_trait_map m)) in
      let d1 := OrderedDict.setitem (event_id event) event (_data m1) in
      if OrderedDict.len d1 >? event_cache_size (_cache_policy m1) then
        match OrderedDict.popitem_first d1 with
        | Ok (_, d2) => Ok (with_data m1 d2)
        | Raise e => Raise e
        end
      else Ok (with_data m1 d1)
  end.

(** The [for] loop over [events.items()]: an exception ends it and leaves
    the manager as the items before it made it. *)
Fixpoint handle_items (m : EventMediaManager)
  (events : list (string * ImageEventBase))
  : result unit * EventMediaManager :=
  match events with
  | [] => (Ok tt, m)
  | (event_name, event) :: rest =>
      match handle_item m event_name event with
      | Ok m' => handle_items m' rest
      | Raise e => (Raise e, m)
      end
  end.

(** [EventMediaManager.async_handle_events] *)
Definition async_handle_events (m : EventMediaManager)
  (event_message : EventMessage) : result unit * EventMediaManager :=
  match resource_update_events event_message with
  | None => (Ok tt, m)
  | Some [] => (Ok tt, m)
  | Some events => handle_items m events
  end.

(** [sort(key=lambda x: x.timestamp, reverse=True)]: a stable sort, latest
    timestamp first. *)
Fixpoint insert_by_timestamp (x : ImageEventBase) (l : list ImageEventBase)
  : list ImageEventBase :=
  match l with
  | [] => [x]
  | y :: rest =>
      if timestamp y >? timestamp x then y :: insert_by_timestamp x rest
      else x :: y :: rest
  end.

Definition sort_by_timestamp_desc (l : list ImageEventBase)
  : list ImageEventBase :=
  List.fold_right insert_by_timestamp [] l.

(** [EventMediaManager.events] *)
Definition events (m : EventMediaManager) : list ImageEventBase :=
  sort_by_timestamp_desc (OrderedDict.values (_data m)).

(** [EventMediaManager.active_events] *)
Fixpoint active_events (now : Z) (m : EventMediaManager)
  (event_types : list string) (acc : OrderedDict.t ImageEventBase)
  : OrderedDict.t ImageEventBase :=
  match event_types with
  | [] => acc
  | event_type :: rest =>
      match OrderedDict.get event_type (_event_trait_map m) with
      | None => active_events now m rest acc
      | Some trait =>
          match active_event now trait with
          | None => active_events now m rest acc
          | Some event =>
              active_events now m rest
                (OrderedDict.setitem event_type event acc)
          end
      end
  end.

(** The loop of [active_event_trait] over the traits still to visit, with
    the candidate found so far. *)
Fixpoint active_event_trait_loop (now : Z) (traits : list EventImageGenerator)
  (trait_to_return : option EventImageGenerator)
  : option EventImageGenerator :=
  match traits with
  | [] => trait_to_return
  | trait :: rest =>
      match active_event now trait with
      | None => active_event_trait_loop now rest trait_to_return
      | Some _ =>
          match trait_to_return with
          | None => active_event_trait_loop now rest (Some trait)
          | Some current =>
              match last_event trait, last_event current with
              | Some event, Some current_event =>
                  if expires_at event >? expires_at current_event
                  then active_event_trait_loop now rest (Some trait)
                  else active_event_trait_loop now rest (Some current)
              | _, _ => active_event_trait_loop now rest (Some current)
              end
          end
      end
  end.

(** [EventMediaManager.active_event_trait] *)
Definition active_event_trait (now : Z) (m : EventMediaManager)
  : option EventImageGenerator :=
  active_event_trait_loop now (OrderedDict.values (_event_trait_map m)) None.

(* ================================================================== *)
(** ** Media retrieval and the collaborators it calls

    [get_media] awaits two collaborators: the generator of the trait,
    which yields a descriptor of the image (or nothing), and the download
    of the descriptor's contents.  Both may raise, and both may answer
    differently from one call to the next, so they read the log of the
    calls made so far. *)

Inductive io_call : Type :=
| GenerateEventImage (generator : EventImageGenerator) (event : ImageEventBase)
| DownloadContents (event_image : EventImage).

(** A manager together with the collaborator calls made so far. *)
Record World : Type := mkWorld {
  manager : EventMediaManager;
  io_log : list io_call
}.

(** The calls a client makes on a manager. *)
Inductive call : Type :=
| HandleEvents (event_message : EventMessage)
| GetMedia (event_id : string)
| SetEventCacheSize (value : Z)
| SetPrefetch (value : bool).

(** The collaborators of a manager. *)
Record Collaborators : Type := mkCollaborators {
  (** [generator.generate_event_image(event)] *)
  generate_event_image :
    list io_call -> EventImageGenerator -> ImageEventBase ->
    result (option EventImage);
  (** [event_image.contents()] *)
  event_image_contents : list io_call -> EventImage -> result (list byte)
}.

Section WithCollaborators.

Variable io : Collaborators.

(** [EventMediaManager.get_media] *)
Definition get_media (w : World) (event_id : string)
  : result (option EventMedia) * World :=
  let m := manager w in
  match OrderedDict.get event_id (_data m) with
  | None => (Ok None, w)
  | Some event =>
      match OrderedDict.move_to_end event_id (_data m) with
      | Raise e => (Raise e, w)
      | Ok d1 =>
          let m1 := with_data m d1 in
          match OrderedDict.get (event_type event) (_event_trait_map m1) with
          | None => (Ok None, mkWorld m1 (io_log w))
          | Some generator =>
              let log1 := io_log w ++ [GenerateEventImage generator event] in
              match generate_event_image io (io_log w) generator event with
              | Raise e => (Raise e, mkWorld m1 log1)
              | Ok None => (Ok None, mkWorld m1 log1)
              | Ok (Some event_image) =>
                  let log2 := log1 ++ [DownloadContents event_image] in
                  match event_image_contents io log1 event_image with
                  | Raise e => (Raise e, mkWorld m1 log2)
                  | Ok bytes =>
                      let media :=
                        mkMedia bytes (event_image_type event_image) in
                      (Ok (Some (mkEventMedia event_id (event_type event)
                                   (timestamp event) media)),
                       mkWorld m1 log2)
                  end
              end
          end
      end
  end.

(** One client call; the manager is kept as the call left it, also when
    the call raised. *)
Definition step (w : World) (c : call) : World :=
  match c with
  | HandleEvents event_message =>
      mkWorld (snd (async_handle_events (manager w) event_message)) (io_log w)
  | GetMedia event_id => snd (get_media w event_id)
  | SetEventCacheSize value =>
      mkWorld
        (with_policy (manager w)
           (set_event_cache_size value (_cache_policy (manager w))))
        (io_log w)
  | SetPrefetch value =>
      mkWorld
        (with_policy (manager w)
           (set_prefetch value (_cache_policy (manager w))))
        (io_log w)
  end.

Definition run (w : World) (calls : list call) : World :=
  List.fold_left step calls w.

(** [calls] never lowers the cache size below the number of events
    cached at the moment of the change. *)
Fixpoint never_below_count (w : World) (calls : list call) : Prop :=
  match calls with
  | [] => True
  | c :: rest =>
      match c with
      | SetEventCacheSize value =>
          OrderedDict.len (_data (manager w)) <= value
      | _ => True
      end
      /\ never_below_count (step w c) rest
  end.

End WithCollaborators.

(** A manager fresh from its constructor, no collaborator called yet. *)
Definition new_world (event_trait_map : OrderedDict.t EventImageGenerator)
  : World :=
  mkWorld (EventMediaManager_init event_trait_map) [].

(** The number of cached events does not exceed the policy's size. *)
Definition within_bound (m : EventMediaManager) : Prop :=
  OrderedDict.len (_data m) <= event_cache_size (_cache_policy m).

(** A message that carries one event under one event name. *)
Definition single_event (event_name : string) (event : ImageEventBase)
  : EventMessage :=
  mkEventMessage (Some [(event_name, event)]).

(** The event of the last item of a message. *)
Definition last_event_of (events0 : list (string * ImageEventBase))
  : option ImageEventBase :=
  List.last (List.map (fun item => Some (snd item)) events0) None.

(** An item of a message whose event name is in the trait map of [m] and
    whose event has the id [key]. *)
Definition supported_with_id (m : EventMediaManager) (key : string)
  (item : string * ImageEventBase) : Prop :=
  OrderedDict.contains (fst item) (_event_trait_map m) = true /\
  event_id (snd item) = key.

(** The calls that change the cache policy. *)
Definition mutates_policy (c : call) : bool :=
  match c with
  | SetEventCacheSize _ | SetPrefetch _ => true
  | HandleEvents _ | GetMedia _ => false
  end.

(** [trait.active_event] is truthy at [now]. *)
Definition is_active (now : Z) (trait : EventImageGenerator) : bool :=
  match active_event now trait with Some _ => true | None => false end.

(** The traits of the map that report an active event at [now], in the
    order of the map. *)
Definition active_traits (now : Z) (m : EventMediaManager)
  : list EventImageGenerator :=
  List.filter (is_active now) (OrderedDict.values (_event_trait_map m)).

(** The expiration instant of the current event of a trait. *)
Definition trait_expires_at (trait : EventImageGenerator) : option Z :=
  option_map expires_at (last_event trait).

(** The same instant as a number, [0] for a trait that has seen no
    event. *)
Definition expiry (trait : EventImageGenerator) : Z :=
  match last_event trait with
  | Some event => expires_at event
  | None => 0
  end.

(** Every entry of the cache is stored under the id of its event. *)
Definition keyed_by_event_id (d : OrderedDict.t ImageEventBase) : Prop :=
  List.Forall (fun entry => fst entry = event_id (snd entry)) d.

(** [a] is listed before [b] by [events]: its timestamp is not earlier. *)
Definition not_earlier (a b : ImageEventBase) : Prop :=
  timestamp b <= timestamp a.

(** [a] has a timestamp after that of [b]. *)
Definition later (a b : ImageEventBase) : Prop :=
  timestamp b < timestamp a.

(** What a trait name stands for in [active_events]: the active event of
    the trait under that name, if there is such a trait and it has one. *)
Definition active_event_of (now : Z) (m : EventMediaManager)
  (event_type0 : string) : option ImageEventBase :=
  match OrderedDict.get event_type0 (_event_trait_map m) with
  | Some trait => active_event now trait
  | None => None
  end.

(** The world after [cache_policy.prefetch = value]. *)
Definition with_prefetch (value : bool) (w : World) : World :=
  mkWorld
    (with_policy (manager w) (set_prefetch value (_cache_policy (manager w))))
    (io_log w).

(* ================================================================== *)
(** ** Sample devices, events and collaborators

    Concrete values on which the statements below are exercised. *)

Module Fixtures.

Definition MOTION : string := "sdm.devices.events.CameraMotion.Motion".
Definition PERSON : string := "sdm.devices.events.CameraPerson.Person".
Definition CHIME : string := "sdm.devices.events.DoorbellChime.Chime".

Definition idle : EventImageGenerator := mkEventImageGenerator None.

(** A camera with a motion and a person trait, no event seen yet. *)
Definition camera : OrderedDict.t EventImageGenerator :=
  [(MOTION, idle); (PERSON, idle)].

(** An event that expires thirty seconds after its timestamp. *)
Definition event_of (name id session : string) (ts : Z) : ImageEventBase :=
  mkImageEventBase id session name ts (ts + 30000000).

Definition event_A : ImageEventBase := event_of MOTION "A" "session-A" 1000000.
Definition event_B : ImageEventBase := event_of MOTION "B" "session-B" 2000000.
Definition event_C : ImageEventBase := event_of PERSON "C" "session-C" 3000000.
Definition event_D : ImageEventBase := event_of MOTION "D" "session-D" 4000000.

(** A later sub-event of the session of [event_A], with an id of its
    own. *)
Definition event_A2 : ImageEventBase :=
  event_of PERSON "A2" "session-A" 5000000.

(** The event [event_A] delivered again with a later timestamp. *)
Definition event_A_again : ImageEventBase :=
  event_of MOTION "A" "session-A" 6000000.

Definition chime : ImageEventBase := event_of CHIME "E" "session-E" 7000000.

(** A cache that holds a doorbell chime although the camera has no
    chime trait. *)
Definition camera_with_chime : World :=
  mkWorld
    (mkEventMediaManager camera CachePolicy_default
       [("A", event_A); ("E", chime)])
    [].

(** A camera whose motion trait holds the older event with the later
    expiration and whose person trait holds the newer event with the
    earlier expiration. *)
Definition busy_camera : EventMediaManager :=
  EventMediaManager_init
    [(MOTION, mkEventImageGenerator
                (Some (mkImageEventBase "M" "session-M" MOTION 10 100)));
     (PERSON, mkEventImageGenerator
                (Some (mkImageEventBase "P" "session-P" PERSON 20 50)))].

Definition message (event : ImageEventBase) : EventMessage :=
  single_event (event_type event) event.

Definition empty_message : EventMessage := mkEventMessage (Some []).

Definition image_bytes : list byte := [x69; x6d; x67].

Definition sample_image : EventImage :=
  mkEventImage "image-url-1" (Some "g.1.eventToken") IMAGE.

(** Every image is generated and downloaded. *)
Definition reliable : Collaborators :=
  mkCollaborators (fun _ _ _ => Ok (Some sample_image))
                  (fun _ _ => Ok image_bytes).

(** The generator has no image to offer. *)
Definition no_image : Collaborators :=
  mkCollaborators (fun _ _ _ => Ok None) (fun _ _ => Ok image_bytes).

(** The generator refuses: the device cannot produce media. *)
Definition unsupported_media : Collaborators :=
  mkCollaborators
    (fun _ _ _ => Raise (ValueError "Camera does not have trait to fetch snapshots"))
    (fun _ _ => Ok image_bytes).

(** The download of the image fails. *)
Definition failing_download : Collaborators :=
  mkCollaborators (fun _ _ _ => Ok (Some sample_image))
                  (fun _ _ => Raise (TransportError "502 Bad Gateway")).

End Fixtures.

(* ================================================================== *)
(** ** Facts about the dictionary operations *)

Module OrderedDictFacts.
Import OrderedDict.

Section Facts.
Context {V : Type}.
Implicit Types (d : OrderedDict.t V) (k key : string) (v : V).

Lemma contains_get key d :
  contains key d = true <-> exists v, get key d = Some v.
Proof.
  unfold contains. destruct (get key d) as [v|].
  - split; [intros _; now exists v | reflexivity].
  - split; [discriminate | intros [v Hv]; discriminate].
Qed.

Lemma contains_false_get key d :
  contains key d = false <-> get key d = None.
Proof.
  unfold contains. destruct (get key d); split; congruence.
Qed.

Lemma length_replace key v d :
  List.length (replace key v d) = List.length d.
Proof.
  induction d as [|[k w] rest IH]; simpl; [reflexivity|].
  destruct (String.eqb key k); simpl; congruence.
Qed.

Lemma keys_replace key v d : keys (replace key v d) = keys d.
Proof.
  unfold keys.
  induction d as [|[k w] rest IH]; simpl; [reflexivity|].
  destruct (String.eqb key k); simpl; [reflexivity|].
  now rewrite IH.
Qed.

Lemma get_replace_same key v d :
  contains key d = true -> get key (replace key v d) = Some v.
Proof.
  unfold contains.
  induction d as [|[k w] rest IH]; simpl; [discriminate|].
  destruct (String.eqb key k) eqn:E; simpl; rewrite E; auto.
Qed.

Lemma get_replace_other key k v d :
  k <> key -> get k (replace key v d) = get k d.
Proof.
  intros Hne.
  induction d as [|[k0 w] rest IH]; simpl; [reflexivity|].
  destruct (String.eqb key k0) eqn:E; simpl.
  - apply String.eqb_eq in E. subst k0.
    apply String.eqb_neq in Hne. now rewrite Hne.
  - now rewrite IH.
Qed.

Lemma contains_replace key k v d :
  contains k (replace key v d) = contains k d.
Proof.
  unfold contains.
  induction d as [|[k0 w] rest IH]; simpl; [reflexivity|].
  destruct (String.eqb key k0) eqn:E; simpl.
  - destruct (String.eqb k k0); reflexivity.
  - destruct (String.eqb k k0); [reflexivity | exact IH].
Qed.

Lemma get_app key d d' :
  get key (d ++ d') =
  match get key d with Some v => Some v | None => get key d' end.
Proof.
  induction d as [|[k w] rest IH]; simpl; [reflexivity|].
  destruct (String.eqb key k); [reflexivity | exact IH].
Qed.

Lemma get_setitem_same key v d : get key (setitem key v d) = Some v.
Proof.
  unfold setitem. destruct (contains key d) eqn:E.
  - now apply get_replace_same.
  - apply contains_false_get in E. rewrite get_app, E. simpl.
    now rewrite String.eqb_refl.
Qed.

Lemma len_setitem key v d :
  len (setitem key v d) = if contains key d then len d else len d + 1.
Proof.
  unfold setitem, len. destruct (contains key d).
  - now rewrite length_replace.
  - rewrite List.length_app. simpl. lia.
Qed.

Lemma len_nonneg d : 0 <= len d.
Proof. unfold len. lia. Qed.

Lemma setitem_nonempty key v d : setitem key v d <> [].
Proof.
  intros H. pose proof (get_setitem_same key v d) as G.
  rewrite H in G. discriminate.
Qed.

Lemma length_remove key v d :
  get key d = Some v -> S (List.length (remove key d)) = List.length d.
Proof.
  induction d as [|[k w] rest IH]; simpl; [discriminate|].
  destruct (String.eqb key k); simpl; [reflexivity|].
  intros H. now rewrite IH.
Qed.

Lemma newest_app_one d key v : newest (d ++ [(key, v)]) = Some (key, v).
Proof.
  unfold newest. rewrite List.map_app. simpl. apply List.last_last.
Qed.

Lemma newest_cons kv d : d <> [] -> newest (kv :: d) = newest d.
Proof.
  unfold newest. destruct d; [congruence | reflexivity].
Qed.
End Facts.

End OrderedDictFacts.

(* ================================================================== *)
(** ** Facts about event ingestion *)

Import OrderedDictFacts.

(** What one supported item makes of the manager: the trait sees the
    event, the event is stored under its id, and the oldest entry goes
    when the cache is over its size. *)
Lemma handle_item_supported m event_name event trait :
  OrderedDict.get event_name (_event_trait_map m) = Some trait ->
  handle_item m event_name event =
  Ok (mkEventMediaManager
        (OrderedDict.replace event_name (handle_event trait event)
           (_event_trait_map m))
        (_cache_policy m)
        (cache_after_store (event_cache_size (_cache_policy m)) event
           (_data m))).
Proof.
  intros Ht. unfold handle_item, cache_after_store. rewrite Ht.
  cbn [with_traits _data _cache_policy].
  destruct (OrderedDict.len _ >? _).
  - destruct (OrderedDict.setitem (event_id event) event (_data m)) eqn:E.
    + now apply setitem_nonempty in E.
    + reflexivity.
  - reflexivity.
Qed.

Lemma handle_item_skipped m event_name event :
  OrderedDict.get event_name (_event_trait_map m) = None ->
  handle_item m event_name event = Ok m.
Proof. intros Ht. unfold handle_item. now rewrite Ht. Qed.

Lemma len_tl {V : Type} (d : OrderedDict.t V) :
  d <> [] -> OrderedDict.len (List.tl d) = OrderedDict.len d - 1.
Proof.
  destruct d; [congruence|]. intros _. unfold OrderedDict.len. simpl List.length. lia.
Qed.

(** One item never raises; it keeps the policy and the names of the trait
    map, and it leaves at most [max (entries before) (cache size)]
    entries. *)
Lemma handle_item_effect m event_name event :
  exists m',
    handle_item m event_name event = Ok m' /\
    _cache_policy m' = _cache_policy m /\
    (forall k, OrderedDict.contains k (_event_trait_map m') =
               OrderedDict.contains k (_event_trait_map m)) /\
    OrderedDict.len (_data m') <=
      Z.max (OrderedDict.len (_data m)) (event_cache_size (_cache_policy m)).
Proof.
  destruct (OrderedDict.get event_name (_event_trait_map m)) as [trait|] eqn:Ht.
  - eexists. split; [now apply handle_item_supported with (trait := trait)|].
    cbn [_cache_policy _event_trait_map _data].
    split; [reflexivity|]. split; [intros k; apply contains_replace|].
    pose proof (len_setitem (event_id event) event (_data m)) as L.
    pose proof (setitem_nonempty (event_id event) event (_data m)) as NE.
    unfold cache_after_store. destruct (OrderedDict.len _ >? _) eqn:C.
    + rewrite len_tl by assumption.
      destruct (OrderedDict.contains (event_id event) (_data m)); lia.
    + rewrite Z.gtb_ltb in C. apply Z.ltb_ge in C. lia.
  - exists m. split; [now apply handle_item_skipped|].
    repeat split; auto. lia.
Qed.

Lemma handle_items_effect events0 : forall m,
  fst (handle_items m events0) = Ok tt /\
  _cache_policy (snd (handle_items m events0)) = _cache_policy m /\
  (forall k, OrderedDict.contains k (_event_trait_map (snd (handle_items m events0))) =
             OrderedDict.contains k (_event_trait_map m)) /\
  OrderedDict.len (_data (snd (handle_items m events0))) <=
    Z.max (OrderedDict.len (_data m)) (event_cache_size (_cache_policy m)).
Proof.
  induction events0 as [|[event_name event] rest IH]; intros m; simpl.
  - repeat split; auto. lia.
  - destruct (handle_item_effect m event_name event)
      as (m' & Hm' & Hp & Hk & Hl).
    rewrite Hm'. destruct (IH m') as (Hf & Hp' & Hk' & Hl').
    split; [exact Hf|]. split; [congruence|].
    split; [intros k; now rewrite Hk', Hk|].
    rewrite Hp in Hl'. lia.
Qed.

Lemma async_handle_events_items m event_message :
  async_handle_events m event_message =
  match resource_update_events event_message with
  | None => (Ok tt, m)
  | Some events0 => handle_items m events0
  end.
Proof.
  unfold async_handle_events.
  destruct (resource_update_events event_message) as [[|item rest]|];
    reflexivity.
Qed.

(** Ingestion never raises, keeps the policy, and leaves at most
    [max (entries before) (cache size)] entries. *)
Lemma async_handle_events_effect m event_message :
  fst (async_handle_events m event_message) = Ok tt /\
  _cache_policy (snd (async_handle_events m event_message)) = _cache_policy m /\
  (forall k,
     OrderedDict.contains k
       (_event_trait_map (snd (async_handle_events m event_message))) =
     OrderedDict.contains k (_event_trait_map m)) /\
  OrderedDict.len (_data (snd (async_handle_events m event_message))) <=
    Z.max (OrderedDict.len (_data m)) (event_cache_size (_cache_policy m)).
Proof.
  rewrite async_handle_events_items.
  destruct (resource_update_events event_message) as [events0|].
  - apply handle_items_effect.
  - simpl. repeat split; auto. lia.
Qed.

(* ================================================================== *)
(** ** Facts about media retrieval and single calls *)

Lemma len_moved_to_end {V : Type} key (v : V) (d : OrderedDict.t V) :
  OrderedDict.get key d = Some v ->
  OrderedDict.len (OrderedDict.remove key d ++ [(key, v)]) = OrderedDict.len d.
Proof.
  intros H. unfold OrderedDict.len. rewrite List.length_app. simpl.
  apply length_remove in H. lia.
Qed.

Section CallFacts.
Variable io : Collaborators.

(** [get_media] keeps the policy and the trait map; the cache is either
    untouched (unknown id) or has the requested entry moved to the end. *)
Lemma get_media_effect w event_id :
  let m' := manager (snd (get_media io w event_id)) in
  _cache_policy m' = _cache_policy (manager w) /\
  _event_trait_map m' = _event_trait_map (manager w) /\
  match OrderedDict.get event_id (_data (manager w)) with
  | None => snd (get_media io w event_id) = w
  | Some event =>
      _data m' =
      OrderedDict.remove event_id (_data (manager w)) ++ [(event_id, event)]
  end.
Proof.
  unfold get_media, OrderedDict.move_to_end.
  destruct (OrderedDict.get event_id (_data (manager w))) as [event|] eqn:G;
    [|simpl; auto].
  cbn [with_data _event_trait_map].
  destruct (OrderedDict.get (event_type event) (_event_trait_map (manager w)))
    as [generator|]; [|simpl; auto].
  destruct (generate_event_image io (io_log w) generator event)
    as [[event_image|]|e]; try (simpl; now auto).
  destruct (event_image_contents io _ event_image); simpl; auto.
Qed.

Lemma get_media_len w event_id :
  OrderedDict.len (_data (manager (snd (get_media io w event_id)))) =
  OrderedDict.len (_data (manager w)).
Proof.
  destruct (get_media_effect w event_id) as (_ & _ & H).
  destruct (OrderedDict.get event_id (_data (manager w))) as [event|] eqn:G.
  - rewrite H. now apply len_moved_to_end.
  - now rewrite H.
Qed.

(** A call keeps the cache within its bound, provided a change of the
    cache size does not go below the number of cached events. *)
Lemma step_within_bound w c :
  within_bound (manager w) ->
  match c with
  | SetEventCacheSize value => OrderedDict.len (_data (manager w)) <= value
  | _ => True
  end ->
  within_bound (manager (step io w c)).
Proof.
  unfold within_bound. intros Hb Hc. destruct c as [msg|event_id|value|value].
  - cbn [step manager].
    destruct (async_handle_events_effect (manager w) msg) as (_ & Hp & _ & Hl).
    rewrite Hp. lia.
  - cbn [step]. rewrite get_media_len.
    destruct (get_media_effect w event_id) as (Hp & _). cbv zeta in Hp.
    now rewrite Hp.
  - exact Hc.
  - exact Hb.
Qed.

(** A call that is not a policy mutation keeps the policy. *)
Lemma step_keeps_policy w c :
  mutates_policy c = false ->
  _cache_policy (manager (step io w c)) = _cache_policy (manager w).
Proof.
  destruct c as [msg|event_id|value|value]; try discriminate; intros _.
  - cbn [step manager].
    now destruct (async_handle_events_effect (manager w) msg) as (_ & Hp & _).
  - cbn [step].
    now destruct (get_media_effect w event_id) as (Hp & _).
Qed.

Lemma run_cons w c calls : run io w (c :: calls) = run io (step io w c) calls.
Proof. reflexivity. Qed.

End CallFacts.

(* ================================================================== *)
(** ** The cache is a dictionary: each key once *)

Lemma keys_app {V : Type} (d d' : OrderedDict.t V) :
  OrderedDict.keys (d ++ d') = OrderedDict.keys d ++ OrderedDict.keys d'.
Proof. apply List.map_app. Qed.

Lemma in_keys_contains {V : Type} key (d : OrderedDict.t V) :
  List.In key (OrderedDict.keys d) <-> OrderedDict.contains key d = true.
Proof.
  unfold OrderedDict.contains.
  induction d as [|[k v] rest IH]; simpl; [split; [tauto | discriminate]|].
  destruct (String.eqb key k) eqn:E.
  - apply String.eqb_eq in E. subst k. tauto.
  - apply String.eqb_neq in E. rewrite <- IH. split; [|tauto].
    intros [H|H]; [congruence | exact H].
Qed.

Lemma wf_setitem {V : Type} key (v : V) (d : OrderedDict.t V) :
  OrderedDict.wf d -> OrderedDict.wf (OrderedDict.setitem key v d).
Proof.
  unfold OrderedDict.wf, OrderedDict.setitem. intros Hd.
  destruct (OrderedDict.contains key d) eqn:Hc.
  - now rewrite keys_replace.
  - rewrite keys_app. simpl.
    apply (Permutation_NoDup (Permutation_cons_append _ _)).
    constructor; [|exact Hd].
    intros Hin. apply in_keys_contains in Hin. congruence.
Qed.

Lemma wf_tl {V : Type} (d : OrderedDict.t V) :
  OrderedDict.wf d -> OrderedDict.wf (List.tl d).
Proof.
  unfold OrderedDict.wf. destruct d as [|kv rest]; [auto|].
  simpl. intros H. now inversion H.
Qed.

Lemma moved_to_end_permutation {V : Type} key (v : V) (d : OrderedDict.t V) :
  OrderedDict.get key d = Some v ->
  Permutation (OrderedDict.remove key d ++ [(key, v)]) d.
Proof.
  induction d as [|[k w] rest IH]; simpl; [discriminate|].
  destruct (String.eqb key k) eqn:E.
  - intros H. injection H as ->. apply String.eqb_eq in E. subst k.
    symmetry. apply Permutation_cons_append.
  - intros H. simpl. apply perm_skip. now apply IH.
Qed.

Lemma wf_moved_to_end {V : Type} key (v : V) (d : OrderedDict.t V) :
  OrderedDict.get key d = Some v ->
  OrderedDict.wf d ->
  OrderedDict.wf (OrderedDict.remove key d ++ [(key, v)]).
Proof.
  unfold OrderedDict.wf, OrderedDict.keys. intros Hg Hd.
  eapply Permutation_NoDup; [|exact Hd].
  apply Permutation_map. symmetry. now apply moved_to_end_permutation.
Qed.

Lemma wf_cache_after_store size event d :
  OrderedDict.wf d -> OrderedDict.wf (cache_after_store size event d).
Proof.
  intros Hd. unfold cache_after_store. cbv zeta.
  destruct (OrderedDict.len _ >? size); [apply wf_tl|]; now apply wf_setitem.
Qed.

Lemma wf_handle_items events0 : forall m,
  OrderedDict.wf (_data m) ->
  OrderedDict.wf (_data (snd (handle_items m events0))).
Proof.
  induction events0 as [|[event_name event] rest IH]; intros m Hd; [exact Hd|].
  cbn [handle_items].
  destruct (OrderedDict.get event_name (_event_trait_map m)) as [trait|] eqn:Ht.
  - rewrite (handle_item_supported _ _ _ _ Ht). apply IH.
    cbn [_data]. now apply wf_cache_after_store.
  - rewrite (handle_item_skipped _ _ _ Ht). now apply IH.
Qed.

(** Every cache reached from a fresh manager holds each key once. *)
Lemma run_wf io calls : forall w,
  OrderedDict.wf (_data (manager w)) ->
  OrderedDict.wf (_data (manager (run io w calls))).
Proof.
  induction calls as [|c rest IH]; intros w Hd; [exact Hd|].
  rewrite run_cons. apply IH.
  destruct c as [msg|event_id0|value|value]; try exact Hd.
  - cbn [step manager]. rewrite async_handle_events_items.
    destruct (resource_update_events msg); [now apply wf_handle_items | exact Hd].
  - cbn [step]. destruct (get_media_effect io w event_id0) as (_ & _ & H).
    cbv zeta in H.
    destruct (OrderedDict.get event_id0 (_data (manager w))) as [event|] eqn:G.
    + rewrite H. now apply wf_moved_to_end.
    + now rewrite H.
Qed.

Lemma new_world_wf event_trait_map :
  OrderedDict.wf (_data (manager (new_world event_trait_map))).
Proof. constructor. Qed.

(* ================================================================== *)
(** ** The cache bound *)

(** C1 (amended).  Along every sequence of calls ([handleEvents],
    [getMedia], changes of [eventCacheSize] and of [prefetch]) that starts
    with the cache within its bound and in which [eventCacheSize] is never
    set below the number of events cached at that moment, the number of
    cached events is at most the current [eventCacheSize] after every call
    of the sequence (after each of its prefixes). *)
Theorem cache_within_bound_along_calls (io : Collaborators) (calls : list call) :
  forall (w : World) (n : nat),
    within_bound (manager w) ->
    never_below_count io w calls ->
    within_bound (manager (run io w (List.firstn n calls))).
Proof.
  induction calls as [|c rest IH]; intros w n Hb Hn.
  - now rewrite List.firstn_nil.
  - destruct n as [|n]; [exact Hb|].
    rewrite List.firstn_cons, run_cons. destruct Hn as [Hc Hrest].
    apply IH; [|exact Hrest].
    apply step_within_bound; [exact Hb|].
    destruct c; auto.
Qed.

(** The bound along a sample session: two events, a growth of the cache
    to three, two more events, a read, and a change of [prefetch]. *)
Lemma cache_within_bound_along_calls_witness :
  let calls :=
    [HandleEvents (Fixtures.message Fixtures.event_A);
     HandleEvents (Fixtures.message Fixtures.event_B);
     SetEventCacheSize 3;
     HandleEvents (Fixtures.message Fixtures.event_C);
     HandleEvents (Fixtures.message Fixtures.event_D);
     GetMedia "B";
     SetPrefetch true;
     HandleEvents (Fixtures.message Fixtures.event_A2)] in
  within_bound
    (manager (run Fixtures.reliable (new_world Fixtures.camera)
                (List.firstn 8 calls))).
Proof.
  intros calls.
  apply (cache_within_bound_along_calls Fixtures.reliable calls
           (new_world Fixtures.camera) 8).
  - unfold within_bound. vm_compute. discriminate.
  - vm_compute. repeat split; discriminate.
Defined.

(** C1 (as stated) fails.  With three events cached and the cache size
    then lowered to one, a call of [handleEvents] that ingests nothing
    returns with three cached events; a call that ingests one new event
    evicts one entry only and returns with three cached events as well. *)
Lemma cache_bound_counterexample :
  let shrunk :=
    run Fixtures.reliable (new_world Fixtures.camera)
      [SetEventCacheSize 3;
       HandleEvents (Fixtures.message Fixtures.event_A);
       HandleEvents (Fixtures.message Fixtures.event_B);
       HandleEvents (Fixtures.message Fixtures.event_C);
       SetEventCacheSize 1] in
  let idle_call :=
    step Fixtures.reliable shrunk (HandleEvents Fixtures.empty_message) in
  let ingesting_call :=
    step Fixtures.reliable shrunk
      (HandleEvents (Fixtures.message Fixtures.event_D)) in
  event_cache_size (_cache_policy (manager idle_call)) = 1 /\
  OrderedDict.keys (_data (manager idle_call)) = ["A"; "B"; "C"] /\
  ~ within_bound (manager idle_call) /\
  event_cache_size (_cache_policy (manager ingesting_call)) = 1 /\
  OrderedDict.keys (_data (manager ingesting_call)) = ["B"; "C"; "D"] /\
  ~ within_bound (manager ingesting_call).
Proof.
  unfold within_bound. vm_compute.
  repeat split; try reflexivity; intros H; apply H; reflexivity.
Qed.

(** C10.  A manager fresh from its constructor has a cache policy with
    [event_cache_size = 2] and [prefetch = False]; after any sequence of
    [handleEvents] and [getMedia] calls that leaves the policy alone the
    policy is still that one and at most two events are cached. *)
Theorem default_policy_retains_two_events
  (io : Collaborators) (event_trait_map : OrderedDict.t EventImageGenerator)
  (calls : list call) :
  List.forallb (fun c => negb (mutates_policy c)) calls = true ->
  _cache_policy (manager (new_world event_trait_map)) = mkCachePolicy 2 false /\
  _cache_policy (manager (run io (new_world event_trait_map) calls)) =
    mkCachePolicy 2 false /\
  OrderedDict.len (_data (manager (run io (new_world event_trait_map) calls)))
    <= 2.
Proof.
  intros Hcalls. split; [reflexivity|].
  assert (Hgen : forall w,
    List.forallb (fun c => negb (mutates_policy c)) calls = true ->
    within_bound (manager w) ->
    _cache_policy (manager (run io w calls)) = _cache_policy (manager w) /\
    within_bound (manager (run io w calls))).
  { clear Hcalls. induction calls as [|c rest IH]; intros w Hc Hb.
    - split; [reflexivity | exact Hb].
    - simpl in Hc. apply andb_true_iff in Hc. destruct Hc as [Hc Hrest].
      apply negb_true_iff in Hc. rewrite run_cons.
      destruct (IH (step io w c) Hrest) as [Hp Hb'].
      + apply step_within_bound; [exact Hb|]. destruct c; auto; discriminate.
      + split; [|exact Hb']. rewrite Hp. now apply step_keeps_policy. }
  destruct (Hgen (new_world event_trait_map) Hcalls) as [Hp Hb].
  - unfold within_bound. vm_compute. discriminate.
  - split; [exact Hp|]. unfold within_bound in Hb. rewrite Hp in Hb. exact Hb.
Qed.

(** The default policy on a sample session of four events and a read. *)
Lemma default_policy_retains_two_events_witness :
  let calls :=
    [HandleEvents (Fixtures.message Fixtures.event_A);
     HandleEvents (Fixtures.message Fixtures.event_B);
     HandleEvents (Fixtures.message Fixtures.event_C);
     GetMedia "B";
     HandleEvents (Fixtures.message Fixtures.event_D)] in
  List.forallb (fun c => negb (mutates_policy c)) calls = true /\
  OrderedDict.len
    (_data (manager (run Fixtures.reliable (new_world Fixtures.camera) calls)))
    <= 2.
Proof.
  intros calls. split; [reflexivity|].
  apply (default_policy_retains_two_events Fixtures.reliable Fixtures.camera
           calls).
  reflexivity.
Defined.

(* ================================================================== *)
(** ** Least-recently-used order *)

(** Ingesting one event of a supported trait: the cache is
    [cache_after_store] of the cache before, nothing else of the policy,
    the trait names or the collaborator log moves. *)
Lemma step_handle_single io w event_name event :
  OrderedDict.contains event_name (_event_trait_map (manager w)) = true ->
  let w' := step io w (HandleEvents (single_event event_name event)) in
  _data (manager w') =
    cache_after_store (event_cache_size (_cache_policy (manager w))) event
      (_data (manager w)) /\
  _cache_policy (manager w') = _cache_policy (manager w) /\
  (forall k, OrderedDict.contains k (_event_trait_map (manager w')) =
             OrderedDict.contains k (_event_trait_map (manager w))) /\
  io_log w' = io_log w.
Proof.
  intros Hs. apply contains_get in Hs. destruct Hs as [trait Ht].
  cbn [step single_event async_handle_events resource_update_events
       handle_items manager io_log].
  rewrite (handle_item_supported _ _ _ _ Ht).
  cbn [snd _data _cache_policy _event_trait_map].
  repeat split. intros k. apply contains_replace.
Qed.

(** Reading an entry: known ids move to the end, unknown ids change
    nothing. *)
Lemma step_get_media io w event_id :
  let w' := step io w (GetMedia event_id) in
  _data (manager w') =
    match OrderedDict.get event_id (_data (manager w)) with
    | Some event =>
        OrderedDict.remove event_id (_data (manager w)) ++ [(event_id, event)]
    | None => _data (manager w)
    end /\
  _cache_policy (manager w') = _cache_policy (manager w) /\
  _event_trait_map (manager w') = _event_trait_map (manager w).
Proof.
  cbn [step]. destruct (get_media_effect io w event_id) as (Hp & Ht & Hd).
  cbv zeta in *. repeat split; auto.
  destruct (OrderedDict.get event_id (_data (manager w))); [exact Hd|].
  now rewrite Hd.
Qed.

(** C2 (amended).  The cache and [get_media] go by event id.  With the
    default cache size of two, after the events A, B and C (pairwise
    distinct event ids, supported traits) are ingested in this order the
    cache holds exactly B and C; after [get_media] of the event id of B
    and the ingestion of a fourth event D it holds exactly B and D: the
    read moved B behind C, so C was the one evicted. *)
Theorem lru_example_two_slots
  (io : Collaborators) (event_trait_map : OrderedDict.t EventImageGenerator)
  (nA nB nC nD : string) (A B C D : ImageEventBase) :
  OrderedDict.contains nA event_trait_map = true ->
  OrderedDict.contains nB event_trait_map = true ->
  OrderedDict.contains nC event_trait_map = true ->
  OrderedDict.contains nD event_trait_map = true ->
  NoDup [event_id A; event_id B; event_id C; event_id D] ->
  let inserts :=
    [HandleEvents (single_event nA A); HandleEvents (single_event nB B);
     HandleEvents (single_event nC C)] in
  event_cache_size (_cache_policy (manager (new_world event_trait_map))) = 2 /\
  _data (manager (run io (new_world event_trait_map) inserts)) =
    [(event_id B, B); (event_id C, C)] /\
  _data (manager (run io (new_world event_trait_map)
                    (inserts ++ [GetMedia (event_id B)]))) =
    [(event_id C, C); (event_id B, B)] /\
  _data (manager (run io (new_world event_trait_map)
                    (inserts ++ [GetMedia (event_id B);
                                 HandleEvents (single_event nD D)]))) =
    [(event_id B, B); (event_id D, D)].
Proof.
  intros HA HB HC HD Hids inserts.
  assert (Hne : forall x y, x <> y -> String.eqb x y = false)
    by (intros x y; apply String.eqb_neq).
  inversion Hids as [|? ? HnA Hids1]; subst.
  inversion Hids1 as [|? ? HnB Hids2]; subst.
  inversion Hids2 as [|? ? HnC _]; subst.
  simpl in HnA, HnB, HnC.
  assert (EAB : String.eqb (event_id B) (event_id A) = false) by (apply Hne; intuition).
  assert (EAC : String.eqb (event_id C) (event_id A) = false) by (apply Hne; intuition).
  assert (EBC : String.eqb (event_id C) (event_id B) = false) by (apply Hne; intuition).
  assert (ECB : String.eqb (event_id B) (event_id C) = false) by (apply Hne; intuition).
  assert (EDB : String.eqb (event_id D) (event_id B) = false) by (apply Hne; intuition).
  assert (EDC : String.eqb (event_id D) (event_id C) = false) by (apply Hne; intuition).
  split; [reflexivity|].
  unfold inserts, run. cbn [List.app List.fold_left].
  set (w0 := new_world event_trait_map).
  destruct (step_handle_single io w0 nA A HA) as (D1 & P1 & S1 & _).
  set (w1 := step io w0 _) in *.
  destruct (step_handle_single io w1 nB B) as (D2 & P2 & S2 & _);
    [now rewrite S1|].
  set (w2 := step io w1 _) in *.
  destruct (step_handle_single io w2 nC C) as (D3 & P3 & S3 & _);
    [now rewrite S2, S1|].
  set (w3 := step io w2 _) in *.
  destruct (step_get_media io w3 (event_id B)) as (D4 & P4 & S4).
  set (w4 := step io w3 _) in *.
  destruct (step_handle_single io w4 nD D) as (D5 & P5 & S5 & _);
    [now rewrite S4, S3, S2, S1|].
  set (w5 := step io w4 _) in *.
  assert (E1 : _data (manager w1) = [(event_id A, A)]).
  { rewrite D1. reflexivity. }
  assert (E2 : _data (manager w2) = [(event_id A, A); (event_id B, B)]).
  { rewrite D2, E1, P1. unfold cache_after_store, OrderedDict.setitem,
      OrderedDict.contains. cbn. now rewrite EAB. }
  assert (E3 : _data (manager w3) = [(event_id B, B); (event_id C, C)]).
  { rewrite D3, E2, P2, P1. unfold cache_after_store, OrderedDict.setitem,
      OrderedDict.contains. cbn. now rewrite EAC, EBC. }
  assert (E4 : _data (manager w4) = [(event_id C, C); (event_id B, B)]).
  { rewrite D4, E3. cbn. now rewrite String.eqb_refl. }
  assert (E5 : _data (manager w5) = [(event_id B, B); (event_id D, D)]).
  { rewrite D5, E4, P4, P3, P2, P1. unfold cache_after_store,
      OrderedDict.setitem, OrderedDict.contains. cbn. now rewrite EDC, EDB. }
  auto.
Qed.

(** The example on the sample camera. *)
Lemma lru_example_two_slots_witness :
  _data (manager (run Fixtures.reliable (new_world Fixtures.camera)
           [HandleEvents (Fixtures.message Fixtures.event_A);
            HandleEvents (Fixtures.message Fixtures.event_B);
            HandleEvents (Fixtures.message Fixtures.event_C);
            GetMedia "B";
            HandleEvents (Fixtures.message Fixtures.event_D)])) =
  [("B", Fixtures.event_B); ("D", Fixtures.event_D)].
Proof.
  refine (proj2 (proj2 (proj2
    (lru_example_two_slots Fixtures.reliable Fixtures.camera
       Fixtures.MOTION Fixtures.MOTION Fixtures.PERSON Fixtures.MOTION
       Fixtures.event_A Fixtures.event_B Fixtures.event_C Fixtures.event_D
       _ _ _ _ _)))); try reflexivity.
  repeat constructor; simpl; intuition discriminate.
Defined.

(** C2 (as stated) fails.  A, B, C and D are events of four distinct
    sessions.  After A, B and C the cache holds B and C, as stated; but
    [get_media] of the session of B finds no entry, returns an absent
    result and moves nothing, so the ingestion of D evicts B, not C, and
    the cache holds C and D. *)
Lemma session_read_counterexample :
  let inserts :=
    [HandleEvents (Fixtures.message Fixtures.event_A);
     HandleEvents (Fixtures.message Fixtures.event_B);
     HandleEvents (Fixtures.message Fixtures.event_C)] in
  let w3 := run Fixtures.reliable (new_world Fixtures.camera) inserts in
  let read := get_media Fixtures.reliable w3 (event_session_id Fixtures.event_B) in
  let w5 :=
    step Fixtures.reliable (snd read)
      (HandleEvents (Fixtures.message Fixtures.event_D)) in
  NoDup (List.map event_session_id
           [Fixtures.event_A; Fixtures.event_B; Fixtures.event_C;
            Fixtures.event_D]) /\
  event_cache_size (_cache_policy (manager w3)) = 2 /\
  OrderedDict.values (_data (manager w3)) = [Fixtures.event_B; Fixtures.event_C] /\
  read = (Ok None, w3) /\
  OrderedDict.values (_data (manager w5)) = [Fixtures.event_C; Fixtures.event_D] /\
  ~ List.In Fixtures.event_B (OrderedDict.values (_data (manager w5))).
Proof.
  vm_compute. split; [|repeat split].
  - repeat constructor; simpl; intuition discriminate.
  - intros [H|[H|[]]]; discriminate.
Qed.

(* ================================================================== *)
(** ** Events that share a cache key *)

Lemma cache_after_store_merge size event d :
  OrderedDict.contains (event_id event) d = true ->
  OrderedDict.len d <= size ->
  cache_after_store size event d = OrderedDict.replace (event_id event) event d.
Proof.
  intros Hc Hl. unfold cache_after_store.
  pose proof (len_setitem (event_id event) event d) as L. rewrite Hc in L.
  cbv zeta. rewrite L.
  destruct (OrderedDict.len d >? size) eqn:C.
  - rewrite Z.gtb_ltb in C. apply Z.ltb_lt in C. lia.
  - unfold OrderedDict.setitem. now rewrite Hc.
Qed.

(** A new key with room for at least one event ends up last; within the
    bound the cache stays within it. *)
Lemma cache_after_store_new size event d :
  OrderedDict.contains (event_id event) d = false ->
  1 <= size ->
  let d' := cache_after_store size event d in
  OrderedDict.newest d' = Some (event_id event, event) /\
  OrderedDict.get (event_id event) d' = Some event /\
  (OrderedDict.len d <= size -> OrderedDict.len d' <= size).
Proof.
  intros Hc Hs. unfold cache_after_store, OrderedDict.setitem. rewrite Hc.
  cbv zeta. apply contains_false_get in Hc.
  destruct (OrderedDict.len _ >? size) eqn:C.
  - destruct d as [|[k0 v0] rest].
    + rewrite Z.gtb_ltb in C. apply Z.ltb_lt in C.
      unfold OrderedDict.len in C. simpl in C. lia.
    + cbn [List.app List.tl]. simpl in Hc.
      destruct (String.eqb (event_id event) k0); [discriminate|].
      split; [apply newest_app_one|]. split.
      * rewrite get_app, Hc. simpl. now rewrite String.eqb_refl.
      * unfold OrderedDict.len. rewrite List.length_app. simpl. lia.
  - rewrite Z.gtb_ltb in C. apply Z.ltb_ge in C.
    split; [apply newest_app_one|]. split.
    + rewrite get_app, Hc. simpl. now rewrite String.eqb_refl.
    + intros _. exact C.
Qed.

Lemma last_cons_default {A : Type} (x : A) (l : list A) (d : A) :
  List.last (x :: l) d = List.last l x.
Proof.
  revert x d. induction l as [|y l IH]; intros x d; [reflexivity|].
  change (List.last (x :: y :: l) d) with (List.last (y :: l) d).
  now rewrite !IH.
Qed.

(** Items that all carry the key [key], ingested into a cache within its
    bound that already holds [key]: the number of entries stays and the
    entry under [key] is the event of the last item. *)
Lemma handle_items_same_key key events0 : forall m,
  List.Forall (supported_with_id m key) events0 ->
  OrderedDict.contains key (_data m) = true ->
  within_bound m ->
  let m' := snd (handle_items m events0) in
  OrderedDict.len (_data m') = OrderedDict.len (_data m) /\
  within_bound m' /\
  OrderedDict.get key (_data m') =
    List.last (List.map (fun item => Some (snd item)) events0)
      (OrderedDict.get key (_data m)).
Proof.
  induction events0 as [|[event_name event] rest IH]; intros m Hall Hc Hb.
  - simpl. auto.
  - inversion Hall as [|item items [Hs Hid] Hrest]. subst item items.
    simpl in Hs, Hid.
    apply contains_get in Hs. destruct Hs as [trait Ht].
    cbn [handle_items]. rewrite (handle_item_supported _ _ _ _ Ht).
    set (m1 := mkEventMediaManager _ _ _).
    assert (D1 : _data m1 = OrderedDict.replace key event (_data m)).
    { unfold m1. cbn [_data]. rewrite <- Hid.
      apply cache_after_store_merge; [now rewrite Hid | exact Hb]. }
    assert (L1 : OrderedDict.len (_data m1) = OrderedDict.len (_data m)).
    { rewrite D1. unfold OrderedDict.len. now rewrite length_replace. }
    destruct (IH m1) as (Hl & Hb' & Hg).
    + eapply List.Forall_impl; [|exact Hrest].
      intros item [Hs' Hid']. split; [|exact Hid'].
      unfold m1. cbn [_event_trait_map]. now rewrite contains_replace.
    + rewrite D1. now rewrite contains_replace.
    + unfold within_bound. rewrite L1. exact Hb.
    + cbv zeta in *. split; [congruence|]. split; [exact Hb'|].
      rewrite Hg, D1, get_replace_same by exact Hc.
      cbn [List.map snd]. now rewrite last_cons_default.
Qed.

(** A non-empty message whose items all carry [key], ingested within the
    bound with room for at least one event: afterwards [key] is cached and
    the cache is within its bound. *)
Lemma handle_items_caches_key key events0 m :
  events0 <> [] ->
  List.Forall (supported_with_id m key) events0 ->
  1 <= event_cache_size (_cache_policy m) ->
  within_bound m ->
  let m' := snd (handle_items m events0) in
  OrderedDict.contains key (_data m') = true /\ within_bound m' /\
  _cache_policy m' = _cache_policy m /\
  (forall k, OrderedDict.contains k (_event_trait_map m') =
             OrderedDict.contains k (_event_trait_map m)).
Proof.
  intros Hne Hall Hs Hb. destruct events0 as [|[event_name event] rest];
    [congruence|].
  inversion Hall as [|? ? [Hsup Hid] Hrest]; subst. simpl in Hsup.
  apply contains_get in Hsup. destruct Hsup as [trait Ht].
  cbn [handle_items]. rewrite (handle_item_supported _ _ _ _ Ht).
  set (m1 := mkEventMediaManager _ _ _).
  assert (H1 : OrderedDict.contains (event_id (snd (event_name, event)))
                 (_data m1) = true /\ within_bound m1).
  { unfold m1, within_bound. cbn [_data _cache_policy snd].
    destruct (OrderedDict.contains (event_id event) (_data m)) eqn:Hc.
    - rewrite cache_after_store_merge by assumption.
      rewrite contains_replace. split; [exact Hc|].
      unfold OrderedDict.len. rewrite length_replace. exact Hb.
    - destruct (cache_after_store_new _ event (_data m) Hc Hs)
        as (_ & Hg & Hl).
      split; [apply contains_get; eauto | now apply Hl]. }
  destruct H1 as [Hc1 Hb1].
  assert (Hrest1 : List.Forall
            (supported_with_id m1 (event_id (snd (event_name, event)))) rest).
  { eapply List.Forall_impl; [|exact Hrest].
    intros item [Hs' Hid']. split; [|exact Hid'].
    unfold m1. cbn [_event_trait_map]. now rewrite contains_replace. }
  destruct (handle_items_same_key _ rest m1 Hrest1 Hc1 Hb1) as (Hl & Hb' & Hg).
  destruct (handle_items_effect rest m1) as (_ & Hp & Hk & _).
  cbv zeta in *. split; [|split; [exact Hb'|split]].
  - apply contains_get. rewrite Hg.
    apply contains_get in Hc1. destruct Hc1 as [v Hv]. rewrite Hv.
    clear. revert v. induction rest as [|item rest IH]; intros v; simpl map.
    + now exists v.
    + rewrite last_cons_default. apply IH.
  - rewrite Hp. reflexivity.
  - intros k. rewrite Hk. unfold m1. cbn [_event_trait_map].
    apply contains_replace.
Qed.

Lemma last_of_items key m (events0 : list (string * ImageEventBase)) d :
  events0 <> [] ->
  List.Forall (supported_with_id m key) events0 ->
  exists later,
    List.last (List.map (fun item => Some (snd item)) events0) d = Some later /\
    event_id later = key.
Proof.
  intros Hne Hall. revert d.
  induction events0 as [|item rest IH]; intros d; [congruence|].
  inversion Hall as [|item' rest' [_ Hid] Hrest]. subst item' rest'.
  cbn [List.map]. rewrite last_cons_default.
  destruct rest as [|item2 rest2].
  - exists (snd item). split; [reflexivity | exact Hid].
  - apply IH; [discriminate | exact Hrest].
Qed.

(** C3 (amended).  The cache is keyed by [event_id].  For every pair of
    non-empty messages whose events (of supported traits) all carry the
    same event id, handled one after the other on a cache that is within
    its bound and has room for at least one event, the second message
    leaves the number of cached events as the first left it, and
    afterwards the entry under that id is the event of the later message
    (its last item), so its event type, event id and timestamp are those
    of the later message. *)
Theorem same_event_id_messages_collapse
  (m : EventMediaManager) (key : string)
  (first second : list (string * ImageEventBase)) :
  1 <= event_cache_size (_cache_policy m) ->
  within_bound m ->
  first <> [] ->
  second <> [] ->
  List.Forall (supported_with_id m key) first ->
  List.Forall (supported_with_id m key) second ->
  let m1 := snd (async_handle_events m (mkEventMessage (Some first))) in
  let m2 := snd (async_handle_events m1 (mkEventMessage (Some second))) in
  OrderedDict.len (_data m2) = OrderedDict.len (_data m1) /\
  exists later,
    last_event_of second = Some later /\
    event_id later = key /\
    OrderedDict.get key (_data m2) = Some later.
Proof.
  intros Hs Hb Hne1 Hne2 Hall1 Hall2.
  rewrite !async_handle_events_items. cbn [resource_update_events].
  destruct (handle_items_caches_key key first m Hne1 Hall1 Hs Hb)
    as (Hc1 & Hb1 & Hp1 & Hk1).
  cbv zeta in *. set (m1 := snd (handle_items m first)) in *.
  rewrite ?(async_handle_events_items m1). cbn [resource_update_events].
  assert (Hall2' : List.Forall (supported_with_id m1 key) second).
  { eapply List.Forall_impl; [|exact Hall2].
    intros item [Hsup Hid]. split; [now rewrite Hk1 | exact Hid]. }
  destruct (handle_items_same_key key second m1 Hall2' Hc1 Hb1)
    as (Hl & _ & Hg).
  cbv zeta in *. split; [exact Hl|].
  destruct (last_of_items key m1 second None Hne2 Hall2') as (later & Hlast & Hid).
  exists later. split; [exact Hlast|]. split; [exact Hid|].
  rewrite Hg.
  destruct (last_of_items key m1 second (OrderedDict.get key (_data m1))
              Hne2 Hall2') as (later' & Hlast' & _).
  rewrite Hlast'. unfold last_event_of in Hlast.
  destruct second as [|item rest]; [congruence|].
  cbn [List.map] in *. rewrite last_cons_default in Hlast, Hlast'. congruence.
Qed.

(** The event A delivered twice on the sample camera: one entry, with the
    timestamp of the second delivery. *)
Lemma same_event_id_messages_collapse_witness :
  let m := EventMediaManager_init Fixtures.camera in
  let m1 := snd (async_handle_events m (Fixtures.message Fixtures.event_A)) in
  let m2 :=
    snd (async_handle_events m1 (Fixtures.message Fixtures.event_A_again)) in
  OrderedDict.len (_data m2) = OrderedDict.len (_data m1) /\
  exists later,
    last_event_of [(Fixtures.MOTION, Fixtures.event_A_again)] = Some later /\
    event_id later = "A" /\
    OrderedDict.get "A" (_data m2) = Some later.
Proof.
  apply (same_event_id_messages_collapse
           (EventMediaManager_init Fixtures.camera) "A"
           [(Fixtures.MOTION, Fixtures.event_A)]
           [(Fixtures.MOTION, Fixtures.event_A_again)]).
  - vm_compute. discriminate.
  - unfold within_bound. vm_compute. discriminate.
  - discriminate.
  - discriminate.
  - repeat constructor.
  - repeat constructor.
Defined.

(** C3 (as stated) fails.  [event_A] and [event_A2] belong to the same
    session and have different event ids: the second message adds a
    second cache entry, and the entry of the first still carries the event
    type, event id and timestamp of the first message. *)
Lemma same_session_counterexample :
  let m := EventMediaManager_init Fixtures.camera in
  let m1 := snd (async_handle_events m (Fixtures.message Fixtures.event_A)) in
  let m2 := snd (async_handle_events m1 (Fixtures.message Fixtures.event_A2)) in
  event_session_id Fixtures.event_A = event_session_id Fixtures.event_A2 /\
  OrderedDict.len (_data m1) = 1 /\
  OrderedDict.len (_data m2) = 2 /\
  _data m2 = [("A", Fixtures.event_A); ("A2", Fixtures.event_A2)].
Proof. vm_compute. repeat split. Qed.

(* ================================================================== *)
(** ** Ingestion and the collaborators *)

(** C4 (the code at the failing input).  [CachePolicy.prefetch] is
    documented as "true if event media should be pre-fetched".  With
    [prefetch] on and an event that is still active when it arrives,
    [async_handle_events] caches the event and returns without a single
    call to the generator of the trait or to the download; the image is
    generated and downloaded only by a later [get_media], which makes
    both calls. *)
Lemma prefetch_on_ingestion_fetches_nothing :
  let now := 2000000 in
  let w := step Fixtures.reliable (new_world Fixtures.camera) (SetPrefetch true) in
  let w1 :=
    step Fixtures.reliable w (HandleEvents (Fixtures.message Fixtures.event_B)) in
  let read := get_media Fixtures.reliable w1 "B" in
  prefetch (_cache_policy (manager w1)) = true /\
  option_map (active_event now)
    (OrderedDict.get Fixtures.MOTION (_event_trait_map (manager w1))) =
    Some (Some Fixtures.event_B) /\
  OrderedDict.get "B" (_data (manager w1)) = Some Fixtures.event_B /\
  io_log w1 = [] /\
  fst read =
    Ok (Some (mkEventMedia "B" Fixtures.MOTION 2000000
                (mkMedia Fixtures.image_bytes IMAGE))) /\
  io_log (snd read) =
    [GenerateEventImage (mkEventImageGenerator (Some Fixtures.event_B))
       Fixtures.event_B;
     DownloadContents Fixtures.sample_image].
Proof. vm_compute. repeat split. Qed.

(* ================================================================== *)
(** ** Media retrieval *)

(** C5 (amended).  [getMedia] on a cached record whose event type has no
    trait in the trait map returns absent, without an error, after moving
    the entry to the most-recent position; when the trait is there and its
    generator raises an error, that error reaches the caller. *)
Theorem get_media_without_generator
  (io : Collaborators) (w : World) (event_id0 : string)
  (event : ImageEventBase) :
  OrderedDict.get event_id0 (_data (manager w)) = Some event ->
  match OrderedDict.get (event_type event) (_event_trait_map (manager w)) with
  | None =>
      get_media io w event_id0 =
      (Ok None,
       mkWorld
         (with_data (manager w)
            (OrderedDict.remove event_id0 (_data (manager w))
               ++ [(event_id0, event)]))
         (io_log w))
  | Some generator =>
      forall e,
        generate_event_image io (io_log w) generator event = Raise e ->
        fst (get_media io w event_id0) = Raise e
  end.
Proof.
  intros Hg. unfold get_media, OrderedDict.move_to_end. rewrite Hg.
  cbn [with_data _event_trait_map].
  destruct (OrderedDict.get (event_type event) (_event_trait_map (manager w)))
    as [generator|]; [|reflexivity].
  intros e He. now rewrite He.
Qed.

(** The chime cached on a camera without a chime trait: an absent result
    and the chime moved to the end, which it already was. *)
Lemma get_media_without_generator_witness :
  get_media Fixtures.reliable Fixtures.camera_with_chime "E" =
  (Ok None, Fixtures.camera_with_chime).
Proof.
  exact (get_media_without_generator Fixtures.reliable
           Fixtures.camera_with_chime "E" Fixtures.chime eq_refl).
Defined.

(** A generator that refuses on a camera without image support: the
    error of the generator is what the caller of [get_media] gets. *)
Lemma generator_error_reaches_caller :
  let w :=
    run Fixtures.unsupported_media (new_world Fixtures.camera)
      [HandleEvents (Fixtures.message Fixtures.event_A)] in
  fst (get_media Fixtures.unsupported_media w "A") =
  Raise (ValueError "Camera does not have trait to fetch snapshots").
Proof. reflexivity. Qed.

(** C5 (as stated) fails.  The cached chime has an event type without a
    trait on this camera, and [getMedia] returns an absent result, not an
    error. *)
Lemma unsupported_trait_counterexample :
  OrderedDict.get "E" (_data (manager Fixtures.camera_with_chime)) =
    Some Fixtures.chime /\
  OrderedDict.get (event_type Fixtures.chime)
    (_event_trait_map (manager Fixtures.camera_with_chime)) = None /\
  fst (get_media Fixtures.reliable Fixtures.camera_with_chime "E") = Ok None /\
  (forall e,
     fst (get_media Fixtures.reliable Fixtures.camera_with_chime "E")
     <> Raise e).
Proof. vm_compute. repeat split; intros; discriminate. Qed.

(** Whenever [get_media] raises, the cache holds the entries it held,
    with the requested one moved to the end, and the policy and the trait
    map are as before. *)
Lemma raising_get_media_only_touches
  (io : Collaborators) (w : World) (event_id0 : string) (e : exn) :
  fst (get_media io w event_id0) = Raise e ->
  let m' := manager (snd (get_media io w event_id0)) in
  (exists event,
     OrderedDict.get event_id0 (_data (manager w)) = Some event /\
     _data m' =
       OrderedDict.remove event_id0 (_data (manager w)) ++ [(event_id0, event)]) /\
  Permutation (_data m') (_data (manager w)) /\
  _cache_policy m' = _cache_policy (manager w) /\
  _event_trait_map m' = _event_trait_map (manager w).
Proof.
  intros Hr. destruct (get_media_effect io w event_id0) as (Hp & Ht & Hd).
  cbv zeta in *.
  destruct (OrderedDict.get event_id0 (_data (manager w))) as [event|] eqn:G.
  - split; [exists event; auto|]. split; [|auto].
    rewrite Hd. now apply moved_to_end_permutation.
  - exfalso. unfold get_media in Hr. rewrite G in Hr. discriminate.
Qed.

(** C7 (amended).  When the fetch step of [getMedia] for a cached event
    fails, that is, when the generator of the event's trait raises an
    error, or returns an image whose download raises one, [getMedia]
    raises that very error to its caller, and the cache holds the same
    entries with the same records as before: none is added, removed or
    modified.  The order is not kept: the requested entry was moved to
    the most-recent position before the fetch was attempted.  The policy
    and the trait map are as before. *)
Theorem failed_fetch_propagates_and_only_touches
  (io : Collaborators) (w : World) (event_id0 : string)
  (event : ImageEventBase) (generator : EventImageGenerator) (e : exn) :
  OrderedDict.get event_id0 (_data (manager w)) = Some event ->
  OrderedDict.get (event_type event) (_event_trait_map (manager w)) =
    Some generator ->
  generate_event_image io (io_log w) generator event = Raise e \/
  (exists event_image,
     generate_event_image io (io_log w) generator event =
       Ok (Some event_image) /\
     event_image_contents io
       (io_log w ++ [GenerateEventImage generator event]) event_image =
       Raise e) ->
  let r := get_media io w event_id0 in
  fst r = Raise e /\
  _data (manager (snd r)) =
    OrderedDict.remove event_id0 (_data (manager w)) ++ [(event_id0, event)] /\
  Permutation (_data (manager (snd r))) (_data (manager w)) /\
  _cache_policy (manager (snd r)) = _cache_policy (manager w) /\
  _event_trait_map (manager (snd r)) = _event_trait_map (manager w).
Proof.
  intros Hg Ht Hfail. cbv zeta.
  assert (Hr : fst (get_media io w event_id0) = Raise e).
  { unfold get_media, OrderedDict.move_to_end. rewrite Hg.
    cbn [with_data _event_trait_map]. rewrite Ht.
    destruct Hfail as [Hgen|(event_image & Hgen & Hdl)]; rewrite Hgen.
    - reflexivity.
    - now rewrite Hdl. }
  split; [exact Hr|].
  destruct (raising_get_media_only_touches io w event_id0 e Hr)
    as ((event' & Hg' & Hd) & Hperm & Hp & Htm).
  rewrite Hg in Hg'. injection Hg' as <-. auto.
Qed.

(** A failed download for the older of two cached events: the error of
    the download is the outcome of [get_media]. *)
Lemma failed_fetch_propagates_and_only_touches_witness :
  let w :=
    run Fixtures.failing_download (new_world Fixtures.camera)
      [HandleEvents (Fixtures.message Fixtures.event_A);
       HandleEvents (Fixtures.message Fixtures.event_B)] in
  let r := get_media Fixtures.failing_download w "A" in
  fst r = Raise (TransportError "502 Bad Gateway") /\
  Permutation (_data (manager (snd r))) (_data (manager w)).
Proof.
  intros w.
  pose proof (failed_fetch_propagates_and_only_touches
                Fixtures.failing_download w "A" Fixtures.event_A
                (mkEventImageGenerator (Some Fixtures.event_B))
                (TransportError "502 Bad Gateway")) as H.
  assert (H1 : OrderedDict.get "A" (_data (manager w)) = Some Fixtures.event_A)
    by reflexivity.
  assert (H2 : OrderedDict.get (event_type Fixtures.event_A)
                 (_event_trait_map (manager w)) =
               Some (mkEventImageGenerator (Some Fixtures.event_B)))
    by reflexivity.
  destruct (H H1 H2) as (Hr & _ & Hperm & _).
  - right. exists Fixtures.sample_image. split; reflexivity.
  - split; [exact Hr | exact Hperm].
Defined.

(** C7 (as stated) fails.  The download for A fails, the error reaches the
    caller, and the cache that listed A before B now lists B before A. *)
Lemma failed_fetch_reorders_counterexample :
  let w :=
    run Fixtures.failing_download (new_world Fixtures.camera)
      [HandleEvents (Fixtures.message Fixtures.event_A);
       HandleEvents (Fixtures.message Fixtures.event_B)] in
  let r := get_media Fixtures.failing_download w "A" in
  fst r = Raise (TransportError "502 Bad Gateway") /\
  OrderedDict.keys (_data (manager w)) = ["A"; "B"] /\
  OrderedDict.keys (_data (manager (snd r))) = ["B"; "A"] /\
  _data (manager (snd r)) <> _data (manager w).
Proof. vm_compute. repeat split. intros H. discriminate. Qed.

(* ================================================================== *)
(** ** Events of traits the device does not expose *)

Lemma handle_items_skip event_name event after before : forall m,
  OrderedDict.get event_name (_event_trait_map m) = None ->
  handle_items m (before ++ (event_name, event) :: after) =
  handle_items m (before ++ after).
Proof.
  induction before as [|[n0 e0] before IH]; intros m Hn.
  - cbn [List.app handle_items]. now rewrite handle_item_skipped.
  - cbn [List.app handle_items].
    destruct (handle_item_effect m n0 e0) as (m' & Hm' & _ & Hk & _).
    rewrite Hm'. apply IH.
    apply contains_false_get. rewrite Hk. now apply contains_false_get.
Qed.

(** C8 (amended).  An event whose trait name is not in the trait map is
    skipped: [handleEvents] does what it does on the message without that
    event, and it does not raise.  In particular a message that carries
    only such an event leaves the manager, and so the listing of
    [events()], as it was: the event is not cached. *)
Theorem unsupported_event_is_skipped
  (m : EventMediaManager) (before after : list (string * ImageEventBase))
  (event_name : string) (event : ImageEventBase) :
  OrderedDict.get event_name (_event_trait_map m) = None ->
  async_handle_events m
    (mkEventMessage (Some (before ++ (event_name, event) :: after))) =
  async_handle_events m (mkEventMessage (Some (before ++ after))) /\
  fst (async_handle_events m
         (mkEventMessage (Some (before ++ (event_name, event) :: after)))) =
    Ok tt /\
  async_handle_events m (single_event event_name event) = (Ok tt, m) /\
  events (snd (async_handle_events m (single_event event_name event))) =
    events m.
Proof.
  intros Hn.
  assert (Hsingle : async_handle_events m (single_event event_name event) =
                    (Ok tt, m)).
  { unfold single_event. rewrite async_handle_events_items.
    cbn [resource_update_events handle_items].
    now rewrite handle_item_skipped. }
  split; [|split; [|split]].
  - rewrite !async_handle_events_items. cbn [resource_update_events].
    now apply handle_items_skip.
  - apply async_handle_events_effect.
  - exact Hsingle.
  - now rewrite Hsingle.
Qed.

(** A doorbell chime sent to the sample camera, which has no chime
    trait. *)
Lemma unsupported_event_is_skipped_witness :
  async_handle_events (EventMediaManager_init Fixtures.camera)
    (Fixtures.message Fixtures.chime) =
  (Ok tt, EventMediaManager_init Fixtures.camera).
Proof.
  refine (proj1 (proj2 (proj2
    (unsupported_event_is_skipped (EventMediaManager_init Fixtures.camera)
       [] [] Fixtures.CHIME Fixtures.chime _)))).
  reflexivity.
Defined.

(** C8 (as stated) fails.  The chime, whose trait name the camera does
    not expose, is not cached and is missing from [events()] after the
    call. *)
Lemma unsupported_event_counterexample :
  let m := EventMediaManager_init Fixtures.camera in
  let r := async_handle_events m (Fixtures.message Fixtures.chime) in
  OrderedDict.get Fixtures.CHIME (_event_trait_map m) = None /\
  fst r = Ok tt /\
  OrderedDict.get (event_id Fixtures.chime) (_data (snd r)) = None /\
  ~ List.In Fixtures.chime (events (snd r)).
Proof. vm_compute. repeat split. intros H. exact H. Qed.

(* ================================================================== *)
(** ** Position of an ingested event *)

(** C6 (amended).  For every [handleEvents] call that ingests one event of
    a supported trait under a key that is not yet cached, with room for at
    least one event in the cache, the new entry occupies the most-recent
    position when the call returns. *)
Theorem new_key_is_most_recent
  (m : EventMediaManager) (event_name : string) (event : ImageEventBase) :
  OrderedDict.contains event_name (_event_trait_map m) = true ->
  1 <= event_cache_size (_cache_policy m) ->
  OrderedDict.contains (event_id event) (_data m) = false ->
  OrderedDict.newest
    (_data (snd (async_handle_events m (single_event event_name event)))) =
  Some (event_id event, event).
Proof.
  intros Hsup Hs Hnew. apply contains_get in Hsup. destruct Hsup as [trait Ht].
  unfold single_event. rewrite async_handle_events_items.
  cbn [resource_update_events handle_items].
  rewrite (handle_item_supported _ _ _ _ Ht). cbn [snd _data].
  now destruct (cache_after_store_new _ event (_data m) Hnew Hs) as (Hn & _).
Qed.

(** The event C arriving at the sample camera that holds A and B. *)
Lemma new_key_is_most_recent_witness :
  let m :=
    manager (run Fixtures.reliable (new_world Fixtures.camera)
               [HandleEvents (Fixtures.message Fixtures.event_A);
                HandleEvents (Fixtures.message Fixtures.event_B)]) in
  OrderedDict.newest
    (_data (snd (async_handle_events m (Fixtures.message Fixtures.event_C)))) =
  Some ("C", Fixtures.event_C).
Proof.
  intros m.
  apply (new_key_is_most_recent m Fixtures.PERSON Fixtures.event_C).
  - reflexivity.
  - vm_compute. discriminate.
  - reflexivity.
Defined.

(** C6 (as stated) fails.  The camera holds A and B, in this order; the
    event A arrives again: its record is replaced where it stands, and the
    most-recent position is still that of B. *)
Lemma merge_keeps_position_counterexample :
  let m :=
    manager (run Fixtures.reliable (new_world Fixtures.camera)
               [HandleEvents (Fixtures.message Fixtures.event_A);
                HandleEvents (Fixtures.message Fixtures.event_B)]) in
  let m' :=
    snd (async_handle_events m (Fixtures.message Fixtures.event_A_again)) in
  OrderedDict.contains (event_id Fixtures.event_A_again) (_data m) = true /\
  _data m' = [("A", Fixtures.event_A_again); ("B", Fixtures.event_B)] /\
  OrderedDict.newest (_data m') = Some ("B", Fixtures.event_B) /\
  OrderedDict.newest (_data m') <> Some ("A", Fixtures.event_A_again).
Proof. vm_compute. repeat split. intros H. discriminate. Qed.

(* ================================================================== *)
(** ** The trait with the active event *)

Section ActiveEventTrait.
Variable now : Z.

Lemma is_active_last_event trait :
  is_active now trait = true ->
  exists event, last_event trait = Some event.
Proof.
  unfold is_active, active_event.
  destruct (last_event trait) as [event|]; [eauto | discriminate].
Qed.

(** With a candidate in hand the loop returns a trait of the candidate
    and the active traits still to visit whose expiration is the latest
    among them. *)
Lemma active_event_trait_loop_candidate traits : forall current,
  is_active now current = true ->
  exists t,
    active_event_trait_loop now traits (Some current) = Some t /\
    List.In t (current :: List.filter (is_active now) traits) /\
    expiry current <= expiry t /\
    List.Forall (fun t' => expiry t' <= expiry t)
      (List.filter (is_active now) traits).
Proof.
  induction traits as [|trait rest IH]; intros current Hc.
  - exists current. simpl. repeat split; auto. lia.
  - cbn [active_event_trait_loop List.filter].
    destruct (is_active now trait) eqn:Ht.
    + destruct (is_active_last_event _ Ht) as [event He].
      pose proof Ht as Ha. unfold is_active in Ha.
      destruct (active_event now trait) as [ev|]; [clear Ha|discriminate].
      destruct (is_active_last_event _ Hc) as [cevent Hce].
      rewrite He, Hce.
      destruct (expires_at event >? expires_at cevent) eqn:C.
      * destruct (IH trait Ht) as (t & Hr & Hin & Hle & Hall).
        exists t. split; [exact Hr|].
        rewrite Z.gtb_ltb in C. apply Z.ltb_lt in C.
        assert (expiry current < expiry trait)
          by (unfold expiry; now rewrite He, Hce).
        split; [right; exact Hin|]. split; [lia|].
        constructor; [exact Hle | exact Hall].
      * destruct (IH current Hc) as (t & Hr & Hin & Hle & Hall).
        exists t. split; [exact Hr|].
        rewrite Z.gtb_ltb in C. apply Z.ltb_ge in C.
        assert (expiry trait <= expiry current)
          by (unfold expiry; now rewrite He, Hce).
        split; [destruct Hin as [Hin|Hin]; [left; exact Hin | right; right; exact Hin]|].
        split; [exact Hle|]. constructor; [lia | exact Hall].
    + unfold is_active in Ht.
      destruct (active_event now trait); [discriminate|].
      apply IH. exact Hc.
Qed.

Lemma active_event_trait_loop_start traits :
  match active_event_trait_loop now traits None with
  | None => List.filter (is_active now) traits = []
  | Some t =>
      List.In t (List.filter (is_active now) traits) /\
      List.Forall (fun t' => expiry t' <= expiry t)
        (List.filter (is_active now) traits)
  end.
Proof.
  induction traits as [|trait rest IH]; [reflexivity|].
  cbn [active_event_trait_loop List.filter].
  destruct (is_active now trait) eqn:Ht.
  2:{ unfold is_active in Ht.
      destruct (active_event now trait); [discriminate | exact IH]. }
  destruct (active_event_trait_loop_candidate rest trait Ht)
    as (t & Hr & Hin & Hle & Hall).
  unfold is_active in Ht.
  destruct (active_event now trait) as [ev|]; [clear Ht|discriminate].
  rewrite Hr. split; [exact Hin|]. constructor; [exact Hle | exact Hall].
Qed.

(** C9.  When no trait reports an active event the resolver returns
    absent; otherwise it returns one of the traits that report an active
    event, and the current event of that trait expires no earlier than
    the current event of any other trait that reports an active event:
    the choice goes by [expires_at], not by [timestamp]. *)
Theorem active_event_trait_latest_expiry (m : EventMediaManager) :
  match active_event_trait now m with
  | None => active_traits now m = []
  | Some t =>
      List.In t (active_traits now m) /\
      List.Forall
        (fun t' =>
           exists x y,
             trait_expires_at t = Some x /\ trait_expires_at t' = Some y /\
             y <= x)
        (active_traits now m)
  end.
Proof.
  unfold active_event_trait, active_traits.
  pose proof (active_event_trait_loop_start
                (OrderedDict.values (_event_trait_map m))) as H.
  destruct (active_event_trait_loop now _ None) as [t|]; [|exact H].
  destruct H as [Hin Hall]. split; [exact Hin|].
  assert (Hact : forall t', List.In t' (List.filter (is_active now)
                   (OrderedDict.values (_event_trait_map m))) ->
                 exists event, last_event t' = Some event).
  { intros t' Ht'. apply List.filter_In in Ht'.
    apply is_active_last_event. tauto. }
  destruct (Hact t Hin) as [event He].
  rewrite List.Forall_forall in *. intros t' Ht'.
  destruct (Hact t' Ht') as [event' He'].
  exists (expires_at event), (expires_at event').
  unfold trait_expires_at. rewrite He, He'. repeat split.
  specialize (Hall t' Ht'). unfold expiry in Hall.
  now rewrite He, He' in Hall.
Qed.

End ActiveEventTrait.

(** On the sample camera the motion event is the older one and expires
    later, the person event is the newer one and expires earlier: the
    motion trait is returned while both are active, the absent result once
    both have expired. *)
Lemma active_event_trait_prefers_expiry :
  option_map last_event (active_event_trait 30 Fixtures.busy_camera) =
    Some (Some (mkImageEventBase "M" "session-M" Fixtures.MOTION 10 100)) /\
  List.length (active_traits 30 Fixtures.busy_camera) = 2%nat /\
  active_event_trait 101 Fixtures.busy_camera = None.
Proof. vm_compute. repeat split. Qed.

(* ================================================================== *)
(** ** The listing of events *)

Lemma insert_by_timestamp_permutation x l :
  Permutation (insert_by_timestamp x l) (x :: l).
Proof.
  induction l as [|y rest IH]; simpl; [reflexivity|].
  destruct (timestamp y >? timestamp x); [|reflexivity].
  rewrite IH. apply perm_swap.
Qed.

Lemma sort_by_timestamp_desc_permutation l :
  Permutation (sort_by_timestamp_desc l) l.
Proof.
  induction l as [|x rest IH]; simpl; [reflexivity|].
  rewrite insert_by_timestamp_permutation. now apply perm_skip.
Qed.

Lemma insert_by_timestamp_sorted x l :
  StronglySorted not_earlier l ->
  StronglySorted not_earlier (insert_by_timestamp x l).
Proof.
  induction l as [|y rest IH]; intros Hs; simpl.
  - repeat constructor.
  - inversion Hs as [|? ? Hrest Hall]; subst.
    destruct (timestamp y >? timestamp x) eqn:C.
    + rewrite Z.gtb_ltb in C. apply Z.ltb_lt in C.
      constructor; [now apply IH|].
      apply (Permutation_Forall (Permutation_sym
               (insert_by_timestamp_permutation x rest))).
      constructor; [unfold not_earlier; lia | exact Hall].
    + rewrite Z.gtb_ltb in C. apply Z.ltb_ge in C.
      constructor; [exact Hs|].
      constructor; [exact C|].
      eapply List.Forall_impl; [|exact Hall].
      unfold not_earlier. intros z Hz. lia.
Qed.

(** X1.  [events()] lists exactly the cached events, each as often as it
    is cached, ordered by timestamp with the latest first. *)
Theorem events_sorted_listing (m : EventMediaManager) :
  Permutation (events m) (OrderedDict.values (_data m)) /\
  StronglySorted not_earlier (events m) /\
  Z.of_nat (List.length (events m)) = OrderedDict.len (_data m).
Proof.
  unfold events. split; [apply sort_by_timestamp_desc_permutation|]. split.
  - induction (OrderedDict.values (_data m)) as [|x rest IH]; simpl.
    + constructor.
    + now apply insert_by_timestamp_sorted.
  - rewrite (Permutation_length (sort_by_timestamp_desc_permutation _)).
    unfold OrderedDict.values, OrderedDict.len. now rewrite List.length_map.
Qed.

Lemma insert_by_timestamp_later x l :
  StronglySorted later l ->
  ~ List.In (timestamp x) (List.map timestamp l) ->
  StronglySorted later (insert_by_timestamp x l).
Proof.
  induction l as [|y rest IH]; intros Hs Hx; simpl.
  - repeat constructor.
  - inversion Hs as [|? ? Hrest Hall]; subst. simpl in Hx.
    destruct (timestamp y >? timestamp x) eqn:C.
    + rewrite Z.gtb_ltb in C. apply Z.ltb_lt in C.
      constructor; [apply IH; [exact Hrest | tauto]|].
      apply (Permutation_Forall (Permutation_sym
               (insert_by_timestamp_permutation x rest))).
      constructor; [exact C | exact Hall].
    + rewrite Z.gtb_ltb in C. apply Z.ltb_ge in C.
      assert (Hlt : timestamp y < timestamp x) by lia.
      constructor; [exact Hs|].
      constructor; [exact Hlt|].
      eapply List.Forall_impl; [|exact Hall].
      unfold later. intros z Hz. lia.
Qed.

Lemma sort_by_timestamp_desc_later l :
  NoDup (List.map timestamp l) ->
  StronglySorted later (sort_by_timestamp_desc l).
Proof.
  induction l as [|x rest IH]; intros Hn; simpl; [constructor|].
  inversion Hn as [|? ? Hx Hrest]; subst.
  apply insert_by_timestamp_later; [now apply IH|].
  intros Hin. apply Hx.
  eapply Permutation_in; [|exact Hin].
  apply Permutation_map. apply sort_by_timestamp_desc_permutation.
Qed.

(** Two listings of the same events in strictly descending order of
    timestamp are the same listing. *)
Lemma later_sorted_unique l1 : forall l2,
  StronglySorted later l1 -> StronglySorted later l2 ->
  Permutation l1 l2 -> l1 = l2.
Proof.
  induction l1 as [|a l1 IH]; intros l2 H1 H2 Hp.
  - apply Permutation_nil in Hp. now subst.
  - destruct l2 as [|b l2];
      [apply Permutation_sym, Permutation_nil in Hp; discriminate|].
    inversion H1 as [|? ? H1' A1]; subst.
    inversion H2 as [|? ? H2' A2]; subst.
    assert (Hab : a = b).
    { assert (Ha : List.In a (b :: l2))
        by (eapply Permutation_in; [exact Hp | now left]).
      assert (Hb : List.In b (a :: l1))
        by (eapply Permutation_in; [symmetry; exact Hp | now left]).
      destruct Ha as [Ha|Ha]; [now subst|].
      destruct Hb as [Hb|Hb]; [now subst|].
      rewrite List.Forall_forall in A1, A2.
      specialize (A1 b Hb). specialize (A2 a Ha). unfold later in *. lia. }
    subst b. f_equal. apply IH; auto.
    now apply Permutation_cons_inv in Hp.
Qed.

(** X2.  While the cached events have pairwise different timestamps, the
    listing of [events()] does not depend on the order of the cache: a
    [get_media] call, which may move an entry, leaves the listing as it
    was. *)
Theorem events_unchanged_by_get_media
  (io : Collaborators) (w : World) (event_id0 : string) :
  NoDup (List.map timestamp (OrderedDict.values (_data (manager w)))) ->
  events (manager (snd (get_media io w event_id0))) = events (manager w).
Proof.
  intros Hn.
  assert (Hp : Permutation
                 (OrderedDict.values
                    (_data (manager (snd (get_media io w event_id0)))))
                 (OrderedDict.values (_data (manager w)))).
  { destruct (get_media_effect io w event_id0) as (_ & _ & H). cbv zeta in H.
    destruct (OrderedDict.get event_id0 (_data (manager w))) as [event|] eqn:G.
    - rewrite H. apply Permutation_map. now apply moved_to_end_permutation.
    - now rewrite H. }
  unfold events. apply later_sorted_unique.
  - apply sort_by_timestamp_desc_later.
    eapply Permutation_NoDup; [|exact Hn].
    apply Permutation_map. symmetry. exact Hp.
  - now apply sort_by_timestamp_desc_later.
  - rewrite !sort_by_timestamp_desc_permutation. exact Hp.
Qed.

(** The listing of A and B before and after the older one is read. *)
Lemma events_unchanged_by_get_media_witness :
  let w :=
    run Fixtures.reliable (new_world Fixtures.camera)
      [HandleEvents (Fixtures.message Fixtures.event_A);
       HandleEvents (Fixtures.message Fixtures.event_B)] in
  events (manager (snd (get_media Fixtures.reliable w "A"))) =
  events (manager w).
Proof.
  intros w. apply (events_unchanged_by_get_media Fixtures.reliable w "A").
  vm_compute. repeat constructor; simpl; intuition discriminate.
Defined.

(* ================================================================== *)
(** ** Ingestion as a whole *)

Lemma handle_items_keys events0 : forall m,
  OrderedDict.keys (_event_trait_map (snd (handle_items m events0))) =
  OrderedDict.keys (_event_trait_map m).
Proof.
  induction events0 as [|[event_name event] rest IH]; intros m; [reflexivity|].
  cbn [handle_items].
  destruct (OrderedDict.get event_name (_event_trait_map m)) as [trait|] eqn:Ht.
  - rewrite (handle_item_supported _ _ _ _ Ht), IH. cbn [_event_trait_map].
    apply keys_replace.
  - rewrite (handle_item_skipped _ _ _ Ht). apply IH.
Qed.

(** X3.  On parsed event records, which carry their event id, and with
    traits whose [handle_event] accepts them, the operations that
    [async_handle_events] performs itself never raise: the trait is only
    indexed under a name that the membership test found, and
    [popitem(last=False)] is only reached on a cache that has just
    received an entry.  The call leaves the cache policy alone and keeps
    the names of the trait map, in their order. *)
Theorem ingestion_never_raises
  (m : EventMediaManager) (event_message : EventMessage) :
  fst (async_handle_events m event_message) = Ok tt /\
  _cache_policy (snd (async_handle_events m event_message)) = _cache_policy m /\
  OrderedDict.keys (_event_trait_map (snd (async_handle_events m event_message))) =
    OrderedDict.keys (_event_trait_map m).
Proof.
  destruct (async_handle_events_effect m event_message) as (Hr & Hp & _ & _).
  split; [exact Hr|]. split; [exact Hp|].
  rewrite async_handle_events_items.
  destruct (resource_update_events event_message) as [events0|];
    [apply handle_items_keys | reflexivity].
Qed.

(** X4.  An ingestion never leaves more entries in the cache than the
    larger of the number it found and the cache size, and never more than
    the number it found plus the number of events of the message. *)
Theorem ingestion_growth_bounded
  (m : EventMediaManager) (events0 : OrderedDict.t ImageEventBase) :
  let m' := snd (async_handle_events m (mkEventMessage (Some events0))) in
  OrderedDict.len (_data m') <=
    Z.max (OrderedDict.len (_data m)) (event_cache_size (_cache_policy m)) /\
  OrderedDict.len (_data m') <=
    OrderedDict.len (_data m) + OrderedDict.len events0.
Proof.
  cbv zeta. split.
  - now destruct (async_handle_events_effect m (mkEventMessage (Some events0)))
      as (_ & _ & _ & Hl).
  - rewrite async_handle_events_items. cbn [resource_update_events].
    revert m. induction events0 as [|[event_name event] rest IH]; intros m.
    + simpl. unfold OrderedDict.len. simpl. lia.
    + cbn [handle_items].
      destruct (OrderedDict.get event_name (_event_trait_map m))
        as [trait|] eqn:Ht.
      * rewrite (handle_item_supported _ _ _ _ Ht).
        etransitivity; [apply IH|]. cbn [_data].
        pose proof (len_setitem (event_id event) event (_data m)) as L.
        pose proof (setitem_nonempty (event_id event) event (_data m)) as NE.
        unfold cache_after_store.
        replace (OrderedDict.len ((event_name, event) :: rest))
          with (OrderedDict.len rest + 1)
          by (unfold OrderedDict.len; simpl List.length; lia).
        destruct (OrderedDict.len _ >? _).
        -- rewrite len_tl by assumption.
           destruct (OrderedDict.contains (event_id event) (_data m)); lia.
        -- destruct (OrderedDict.contains (event_id event) (_data m)); lia.
      * rewrite (handle_item_skipped _ _ _ Ht).
        etransitivity; [apply IH|].
        unfold OrderedDict.len. simpl List.length. lia.
Qed.

Lemma handle_items_app first : forall m second,
  snd (handle_items m (first ++ second)) =
  snd (handle_items (snd (handle_items m first)) second).
Proof.
  induction first as [|[event_name event] rest IH]; intros m second;
    [reflexivity|].
  cbn [List.app handle_items].
  destruct (handle_item_effect m event_name event) as (m' & Hm' & _).
  rewrite Hm'. apply IH.
Qed.

(** X5.  A message is handled event by event: handling one message with
    the events [first ++ second] leaves the manager that handling a
    message with [first] and then a message with [second] leaves. *)
Theorem ingestion_of_appended_messages
  (m : EventMediaManager) (first second : OrderedDict.t ImageEventBase) :
  snd (async_handle_events m (mkEventMessage (Some (first ++ second)))) =
  snd (async_handle_events
         (snd (async_handle_events m (mkEventMessage (Some first))))
         (mkEventMessage (Some second))).
Proof.
  rewrite !async_handle_events_items. cbn [resource_update_events].
  apply handle_items_app.
Qed.

(* ================================================================== *)
(** ** Eviction *)

Lemma cache_after_store_new_shape size event d :
  OrderedDict.contains (event_id event) d = false ->
  1 <= size ->
  OrderedDict.len d <= size ->
  cache_after_store size event d =
  (if OrderedDict.len d <? size then d else List.tl d)
    ++ [(event_id event, event)].
Proof.
  intros Hc Hs Hb. unfold cache_after_store, OrderedDict.setitem. rewrite Hc.
  cbv zeta.
  replace (OrderedDict.len (d ++ [(event_id event, event)]))
    with (OrderedDict.len d + 1)
    by (unfold OrderedDict.len; rewrite List.length_app; simpl; lia).
  destruct (OrderedDict.len d <? size) eqn:C.
  - apply Z.ltb_lt in C.
    destruct (OrderedDict.len d + 1 >? size) eqn:C'; [|reflexivity].
    rewrite Z.gtb_ltb in C'. apply Z.ltb_lt in C'. lia.
  - apply Z.ltb_ge in C.
    destruct (OrderedDict.len d + 1 >? size) eqn:C'.
    + destruct d as [|kv rest]; [|reflexivity].
      unfold OrderedDict.len in C. simpl in C. lia.
    + rewrite Z.gtb_ltb in C'. apply Z.ltb_ge in C'. lia.
Qed.

(** X6.  Ingesting an event of a supported trait under a key that is not
    cached, into a cache within its bound that has room for at least one
    event: the event is appended; when the cache was full, exactly the
    oldest entry is dropped, and the other entries keep their order. *)
Theorem new_event_evicts_oldest_when_full
  (m : EventMediaManager) (event_name : string) (event : ImageEventBase) :
  OrderedDict.contains event_name (_event_trait_map m) = true ->
  OrderedDict.contains (event_id event) (_data m) = false ->
  1 <= event_cache_size (_cache_policy m) ->
  within_bound m ->
  _data (snd (async_handle_events m (single_event event_name event))) =
  (if OrderedDict.len (_data m) <? event_cache_size (_cache_policy m)
   then _data m else List.tl (_data m))
    ++ [(event_id event, event)].
Proof.
  intros Hsup Hnew Hs Hb. apply contains_get in Hsup.
  destruct Hsup as [trait Ht].
  unfold single_event. rewrite async_handle_events_items.
  cbn [resource_update_events handle_items].
  rewrite (handle_item_supported _ _ _ _ Ht). cbn [snd _data].
  now apply cache_after_store_new_shape.
Qed.

(** The event C arriving at the sample camera whose two slots hold A and
    B: A goes. *)
Lemma new_event_evicts_oldest_when_full_witness :
  let m :=
    manager (run Fixtures.reliable (new_world Fixtures.camera)
               [HandleEvents (Fixtures.message Fixtures.event_A);
                HandleEvents (Fixtures.message Fixtures.event_B)]) in
  _data (snd (async_handle_events m (Fixtures.message Fixtures.event_C))) =
  [("B", Fixtures.event_B); ("C", Fixtures.event_C)].
Proof.
  intros m.
  apply (new_event_evicts_oldest_when_full m Fixtures.PERSON Fixtures.event_C).
  - reflexivity.
  - reflexivity.
  - vm_compute. discriminate.
  - unfold within_bound. vm_compute. discriminate.
Defined.

(** X7.  Once an entry has been evicted, [get_media] for its id finds
    nothing: in a full cache that holds each key once, after a new event
    has pushed out the oldest entry, [get_media] of that entry's id
    returns an absent result, calls no collaborator and changes
    nothing. *)
Theorem evicted_event_has_no_media
  (io : Collaborators) (w : World) (event_name : string)
  (event : ImageEventBase) (oldest : string) (old_event : ImageEventBase)
  (rest : OrderedDict.t ImageEventBase) :
  _data (manager w) = (oldest, old_event) :: rest ->
  OrderedDict.wf (_data (manager w)) ->
  OrderedDict.contains event_name (_event_trait_map (manager w)) = true ->
  OrderedDict.contains (event_id event) (_data (manager w)) = false ->
  OrderedDict.len (_data (manager w)) =
    event_cache_size (_cache_policy (manager w)) ->
  let w' := step io w (HandleEvents (single_event event_name event)) in
  _data (manager w') = rest ++ [(event_id event, event)] /\
  get_media io w' oldest = (Ok None, w').
Proof.
  intros Hd Hwf Hsup Hnew Hfull.
  destruct (step_handle_single io w event_name event Hsup) as (Hd' & _).
  cbv zeta in *. set (w' := step io w _) in *.
  assert (Hs : 1 <= event_cache_size (_cache_policy (manager w))).
  { rewrite <- Hfull, Hd. unfold OrderedDict.len. simpl List.length. lia. }
  assert (E : _data (manager w') = rest ++ [(event_id event, event)]).
  { rewrite Hd', cache_after_store_new_shape by (auto; lia).
    rewrite Hfull, Z.ltb_irrefl, Hd. reflexivity. }
  split; [exact E|].
  unfold get_media. rewrite E, get_app.
  assert (Hrest : OrderedDict.get oldest rest = None).
  { apply contains_false_get.
    destruct (OrderedDict.contains oldest rest) eqn:C; [|reflexivity].
    apply in_keys_contains in C. unfold OrderedDict.wf in Hwf.
    rewrite Hd in Hwf. inversion Hwf; subst. contradiction. }
  rewrite Hrest. simpl.
  assert (Hne : String.eqb oldest (event_id event) = false).
  { apply String.eqb_neq. intros Heq. rewrite Hd in Hnew.
    unfold OrderedDict.contains in Hnew. simpl in Hnew.
    rewrite <- Heq, String.eqb_refl in Hnew. discriminate. }
  now rewrite Hne.
Qed.

(** A is pushed out of the sample camera by C and is then unknown. *)
Lemma evicted_event_has_no_media_witness :
  let w :=
    run Fixtures.reliable (new_world Fixtures.camera)
      [HandleEvents (Fixtures.message Fixtures.event_A);
       HandleEvents (Fixtures.message Fixtures.event_B)] in
  let w' :=
    step Fixtures.reliable w (HandleEvents (Fixtures.message Fixtures.event_C)) in
  _data (manager w') = [("B", Fixtures.event_B); ("C", Fixtures.event_C)] /\
  get_media Fixtures.reliable w' "A" = (Ok None, w').
Proof.
  intros w.
  apply (evicted_event_has_no_media Fixtures.reliable w Fixtures.PERSON
           Fixtures.event_C "A" Fixtures.event_A [("B", Fixtures.event_B)]).
  - reflexivity.
  - vm_compute. repeat constructor; simpl; intuition discriminate.
  - reflexivity.
  - reflexivity.
  - reflexivity.
Defined.

(* ================================================================== *)
(** ** What a read does to the manager *)

(** X8.  [get_media] never adds, removes or modifies a cache entry,
    whatever its outcome: the cache after the call is a rearrangement of
    the cache before it, of the same length, and the cache policy and the
    trait map are the same. *)
Theorem get_media_keeps_entries
  (io : Collaborators) (w : World) (event_id0 : string) :
  let m' := manager (snd (get_media io w event_id0)) in
  Permutation (_data m') (_data (manager w)) /\
  OrderedDict.len (_data m') = OrderedDict.len (_data (manager w)) /\
  _cache_policy m' = _cache_policy (manager w) /\
  _event_trait_map m' = _event_trait_map (manager w).
Proof.
  destruct (get_media_effect io w event_id0) as (Hp & Ht & Hd).
  cbv zeta in *. split; [|split; [apply get_media_len | auto]].
  destruct (OrderedDict.get event_id0 (_data (manager w))) as [event|] eqn:G.
  - rewrite Hd. now apply moved_to_end_permutation.
  - now rewrite Hd.
Qed.

Lemma get_remove_absent {V : Type} key (d : OrderedDict.t V) :
  OrderedDict.wf d -> OrderedDict.get key (OrderedDict.remove key d) = None.
Proof.
  unfold OrderedDict.wf.
  induction d as [|[k v] rest IH]; intros Hd; [reflexivity|].
  inversion Hd as [|? ? Hk Hrest]; subst. simpl.
  destruct (String.eqb key k) eqn:E.
  - apply String.eqb_eq in E. subst k. apply contains_false_get.
    destruct (OrderedDict.contains key rest) eqn:C; [|reflexivity].
    apply in_keys_contains in C. contradiction.
  - simpl. rewrite E. now apply IH.
Qed.

Lemma remove_appended {V : Type} key (v : V) (d : OrderedDict.t V) :
  OrderedDict.get key d = None ->
  OrderedDict.remove key (d ++ [(key, v)]) = d.
Proof.
  induction d as [|[k w] rest IH]; simpl.
  - now rewrite String.eqb_refl.
  - destruct (String.eqb key k); [discriminate|].
    intros H. now rewrite IH.
Qed.

(** X10.  [get_media] for a cached id makes that entry the most recent
    one of the cache, and a second [get_media] for the same id leaves the
    cache as the first left it. *)
Theorem get_media_touch_is_idempotent
  (io : Collaborators) (w : World) (event_id0 : string)
  (event : ImageEventBase) :
  OrderedDict.get event_id0 (_data (manager w)) = Some event ->
  OrderedDict.wf (_data (manager w)) ->
  let w1 := snd (get_media io w event_id0) in
  let w2 := snd (get_media io w1 event_id0) in
  OrderedDict.newest (_data (manager w1)) = Some (event_id0, event) /\
  OrderedDict.get event_id0 (_data (manager w1)) = Some event /\
  _data (manager w2) = _data (manager w1).
Proof.
  intros Hg Hwf. cbv zeta.
  destruct (get_media_effect io w event_id0) as (_ & _ & H1).
  cbv zeta in H1. rewrite Hg in H1.
  pose proof (get_remove_absent event_id0 _ Hwf) as Hnone.
  assert (G1 : OrderedDict.get event_id0
                 (_data (manager (snd (get_media io w event_id0)))) =
               Some event).
  { rewrite H1, get_app, Hnone. simpl. now rewrite String.eqb_refl. }
  split; [rewrite H1; apply newest_app_one|]. split; [exact G1|].
  destruct (get_media_effect io (snd (get_media io w event_id0)) event_id0)
    as (_ & _ & H2).
  cbv zeta in H2. rewrite G1 in H2. rewrite H2, H1.
  now rewrite remove_appended.
Qed.

(** Two reads of A on the sample camera that holds A and B. *)
Lemma get_media_touch_is_idempotent_witness :
  let w :=
    run Fixtures.reliable (new_world Fixtures.camera)
      [HandleEvents (Fixtures.message Fixtures.event_A);
       HandleEvents (Fixtures.message Fixtures.event_B)] in
  let w1 := snd (get_media Fixtures.reliable w "A") in
  let w2 := snd (get_media Fixtures.reliable w1 "A") in
  OrderedDict.newest (_data (manager w1)) = Some ("A", Fixtures.event_A) /\
  OrderedDict.get "A" (_data (manager w1)) = Some Fixtures.event_A /\
  _data (manager w2) = _data (manager w1).
Proof.
  intros w.
  apply (get_media_touch_is_idempotent Fixtures.reliable w "A"
           Fixtures.event_A).
  - reflexivity.
  - vm_compute. repeat constructor; simpl; intuition discriminate.
Defined.

(* ================================================================== *)
(** ** Invariants of the caches a client can reach *)

Lemma keyed_setitem event d :
  keyed_by_event_id d ->
  keyed_by_event_id (OrderedDict.setitem (event_id event) event d).
Proof.
  unfold keyed_by_event_id, OrderedDict.setitem. intros Hd.
  destruct (OrderedDict.contains (event_id event) d).
  - induction d as [|[k v] rest IH]; simpl; [constructor|].
    inversion Hd as [|? ? Hk Hrest]; subst.
    destruct (String.eqb (event_id event) k) eqn:E.
    + apply String.eqb_eq in E. constructor; [symmetry; exact E | exact Hrest].
    + constructor; [exact Hk | now apply IH].
  - apply List.Forall_app. split; [exact Hd|]. now constructor.
Qed.

Lemma keyed_cache_after_store size event d :
  keyed_by_event_id d -> keyed_by_event_id (cache_after_store size event d).
Proof.
  intros Hd. unfold cache_after_store. cbv zeta.
  pose proof (keyed_setitem event d Hd) as H.
  destruct (OrderedDict.len _ >? size); [|exact H].
  unfold keyed_by_event_id in *.
  destruct (OrderedDict.setitem (event_id event) event d); [exact H|].
  simpl. now inversion H.
Qed.

Lemma keyed_handle_items events0 : forall m,
  keyed_by_event_id (_data m) ->
  keyed_by_event_id (_data (snd (handle_items m events0))).
Proof.
  induction events0 as [|[event_name event] rest IH]; intros m Hd; [exact Hd|].
  cbn [handle_items].
  destruct (OrderedDict.get event_name (_event_trait_map m)) as [trait|] eqn:Ht.
  - rewrite (handle_item_supported _ _ _ _ Ht). apply IH.
    cbn [_data]. now apply keyed_cache_after_store.
  - rewrite (handle_item_skipped _ _ _ Ht). now apply IH.
Qed.

Lemma run_keyed io calls : forall w,
  keyed_by_event_id (_data (manager w)) ->
  keyed_by_event_id (_data (manager (run io w calls))).
Proof.
  induction calls as [|c rest IH]; intros w Hd; [exact Hd|].
  rewrite run_cons. apply IH.
  destruct c as [msg|event_id0|value|value]; try exact Hd.
  - cbn [step manager]. rewrite async_handle_events_items.
    destruct (resource_update_events msg);
      [now apply keyed_handle_items | exact Hd].
  - cbn [step]. destruct (get_media_effect io w event_id0) as (_ & _ & H).
    cbv zeta in H. unfold keyed_by_event_id in *.
    destruct (OrderedDict.get event_id0 (_data (manager w))) as [event|] eqn:G.
    + rewrite H.
      eapply Permutation_Forall; [|exact Hd].
      symmetry. now apply moved_to_end_permutation.
    + now rewrite H.
Qed.

Lemma keyed_get d key event :
  keyed_by_event_id d ->
  OrderedDict.get key d = Some event -> event_id event = key.
Proof.
  unfold keyed_by_event_id.
  induction d as [|[k v] rest IH]; intros Hk; simpl; [discriminate|].
  inversion Hk as [|? ? Hkv Hrest]; subst. simpl in Hkv.
  destruct (String.eqb key k) eqn:E.
  - apply String.eqb_eq in E. intros H. injection H as <-. congruence.
  - now apply IH.
Qed.

(** X11.  Whatever calls a client makes on a fresh manager, the cache it
    reaches holds every key once, and every entry sits under the event id
    of the event it holds. *)
Theorem reachable_cache_is_keyed_by_event_id
  (io : Collaborators) (event_trait_map : OrderedDict.t EventImageGenerator)
  (calls : list call) :
  let d := _data (manager (run io (new_world event_trait_map) calls)) in
  OrderedDict.wf d /\
  keyed_by_event_id d /\
  forall key event, OrderedDict.get key d = Some event -> event_id event = key.
Proof.
  cbv zeta.
  assert (Hk : keyed_by_event_id
                 (_data (manager (run io (new_world event_trait_map) calls))))
    by (apply run_keyed; constructor).
  split; [apply run_wf, new_world_wf|]. split; [exact Hk|].
  intros key event. now apply keyed_get.
Qed.

(** X12.  On a manager reached from a fresh one, a media returned by
    [get_media] describes the cached event of the requested id: the id of
    the media is the requested one and the event's own, its event type
    and timestamp are those of the cached event, and that event type has
    a trait in the trait map. *)
Theorem returned_media_describes_requested_event
  (io : Collaborators) (event_trait_map : OrderedDict.t EventImageGenerator)
  (calls : list call) (event_id0 : string) (media : EventMedia) :
  let w := run io (new_world event_trait_map) calls in
  fst (get_media io w event_id0) = Ok (Some media) ->
  exists event,
    OrderedDict.get event_id0 (_data (manager w)) = Some event /\
    event_id event = event_id0 /\
    em_event_id media = event_id0 /\
    em_event_type media = event_type event /\
    em_event_timestamp media = timestamp event /\
    OrderedDict.contains (event_type event) (_event_trait_map (manager w)) =
      true.
Proof.
  cbv zeta. intros Hr.
  assert (Hk : keyed_by_event_id
                 (_data (manager (run io (new_world event_trait_map) calls))))
    by (apply run_keyed; constructor).
  set (w := run io (new_world event_trait_map) calls) in *.
  unfold get_media, OrderedDict.move_to_end in Hr.
  destruct (OrderedDict.get event_id0 (_data (manager w))) as [event|] eqn:G;
    [|discriminate].
  cbn [with_data _event_trait_map] in Hr.
  exists event. split; [reflexivity|].
  split; [now apply (keyed_get _ _ _ Hk)|].
  unfold OrderedDict.contains.
  destruct (OrderedDict.get (event_type event) (_event_trait_map (manager w)))
    as [generator|]; [|discriminate].
  destruct (generate_event_image io (io_log w) generator event)
    as [[event_image|]|e]; try discriminate.
  destruct (event_image_contents io _ event_image); [|discriminate].
  simpl in Hr. injection Hr as <-. simpl. auto.
Qed.

(** The image of B on the sample camera. *)
Lemma returned_media_describes_requested_event_witness :
  let calls :=
    [HandleEvents (Fixtures.message Fixtures.event_A);
     HandleEvents (Fixtures.message Fixtures.event_B)] in
  let media :=
    mkEventMedia "B" Fixtures.MOTION 2000000
      (mkMedia Fixtures.image_bytes IMAGE) in
  exists event,
    OrderedDict.get "B"
      (_data (manager (run Fixtures.reliable (new_world Fixtures.camera) calls))) =
      Some event /\
    event_id event = "B" /\
    em_event_id media = "B" /\
    em_event_type media = event_type event /\
    em_event_timestamp media = timestamp event /\
    OrderedDict.contains (event_type event)
      (_event_trait_map
         (manager (run Fixtures.reliable (new_world Fixtures.camera) calls))) =
      true.
Proof.
  intros calls media.
  apply (returned_media_describes_requested_event Fixtures.reliable
           Fixtures.camera calls "B" media).
  reflexivity.
Defined.

(* ================================================================== *)
(** ** The prefetch flag *)

Lemma handle_items_with_prefetch value events0 : forall m,
  handle_items (with_policy m (set_prefetch value (_cache_policy m))) events0 =
  (fst (handle_items m events0),
   with_policy (snd (handle_items m events0))
     (set_prefetch value (_cache_policy (snd (handle_items m events0))))).
Proof.
  induction events0 as [|[event_name event] rest IH]; intros m; [reflexivity|].
  cbn [handle_items].
  destruct (OrderedDict.get event_name (_event_trait_map m)) as [trait|] eqn:Ht.
  - rewrite (handle_item_supported _ _ _ _ Ht).
    rewrite (handle_item_supported _ event_name event trait) by exact Ht.
    cbn [with_policy _event_trait_map _cache_policy _data set_prefetch
         event_cache_size prefetch].
    apply (IH (mkEventMediaManager _ _ _)).
  - rewrite (handle_item_skipped _ _ _ Ht).
    rewrite (handle_item_skipped _ event_name event) by exact Ht.
    apply IH.
Qed.

Lemma get_media_with_prefetch io value w event_id0 :
  get_media io (with_prefetch value w) event_id0 =
  (fst (get_media io w event_id0),
   with_prefetch value (snd (get_media io w event_id0))).
Proof.
  unfold get_media, OrderedDict.move_to_end, with_prefetch.
  cbn [manager io_log with_policy _data _event_trait_map with_data].
  destruct (OrderedDict.get event_id0 (_data (manager w))) as [event|];
    [|reflexivity].
  destruct (OrderedDict.get (event_type event) (_event_trait_map (manager w)))
    as [generator|]; [|reflexivity].
  destruct (generate_event_image io (io_log w) generator event)
    as [[event_image|]|e]; try reflexivity.
  destruct (event_image_contents io _ event_image); reflexivity.
Qed.

Lemma step_with_prefetch io value w c :
  step io (with_prefetch value w) c =
  match c with
  | SetPrefetch _ => step io w c
  | _ => with_prefetch value (step io w c)
  end.
Proof.
  destruct c as [msg|event_id0|size|value'].
  - cbn [step]. unfold with_prefetch at 1. cbn [manager io_log].
    rewrite !async_handle_events_items.
    destruct (resource_update_events msg) as [events0|]; [|reflexivity].
    now rewrite handle_items_with_prefetch.
  - cbn [step]. now rewrite get_media_with_prefetch.
  - reflexivity.
  - reflexivity.
Qed.

Lemma run_with_prefetch io value calls : forall w,
  run io (with_prefetch value w) calls = run io w calls \/
  run io (with_prefetch value w) calls = with_prefetch value (run io w calls).
Proof.
  induction calls as [|c rest IH]; intros w; [now right|].
  rewrite !run_cons, step_with_prefetch.
  destruct c; try apply IH. now left.
Qed.

(** X13.  The [prefetch] flag is never read: setting it to either value
    before any sequence of calls changes neither the cache, nor the trait
    map, nor the cache size, nor the calls made to the collaborators. *)
Theorem prefetch_flag_has_no_effect
  (io : Collaborators) (value : bool) (w : World) (calls : list call) :
  let w1 := run io (step io w (SetPrefetch value)) calls in
  let w2 := run io w calls in
  _data (manager w1) = _data (manager w2) /\
  _event_trait_map (manager w1) = _event_trait_map (manager w2) /\
  event_cache_size (_cache_policy (manager w1)) =
    event_cache_size (_cache_policy (manager w2)) /\
  io_log w1 = io_log w2.
Proof.
  cbv zeta. change (step io w (SetPrefetch value)) with (with_prefetch value w).
  destruct (run_with_prefetch io value calls w) as [H|H]; rewrite H.
  - auto.
  - unfold with_prefetch. simpl. auto.
Qed.

(* ================================================================== *)
(** ** Active events by trait name *)

Lemma get_setitem_other {V : Type} key k (v : V) (d : OrderedDict.t V) :
  k <> key ->
  OrderedDict.get k (OrderedDict.setitem key v d) = OrderedDict.get k d.
Proof.
  intros Hne. unfold OrderedDict.setitem.
  destruct (OrderedDict.contains key d).
  - now apply get_replace_other.
  - rewrite get_app. destruct (OrderedDict.get k d); [reflexivity|].
    simpl. apply String.eqb_neq in Hne. now rewrite Hne.
Qed.

Lemma active_events_step now m event_type0 rest acc :
  active_events now m (event_type0 :: rest) acc =
  active_events now m rest
    match active_event_of now m event_type0 with
    | Some event => OrderedDict.setitem event_type0 event acc
    | None => acc
    end.
Proof.
  unfold active_event_of. cbn [active_events].
  destruct (OrderedDict.get event_type0 (_event_trait_map m)) as [trait|];
    [|reflexivity].
  destruct (active_event now trait); reflexivity.
Qed.

Lemma active_events_get now m event_types : forall acc name,
  OrderedDict.get name (active_events now m event_types acc) =
  match
    (if List.existsb (String.eqb name) event_types
     then active_event_of now m name else None)
  with
  | Some event => Some event
  | None => OrderedDict.get name acc
  end.
Proof.
  induction event_types as [|event_type0 rest IH]; intros acc name;
    [reflexivity|].
  rewrite active_events_step, IH. cbn [List.existsb].
  destruct (String.eqb name event_type0) eqn:E.
  - apply String.eqb_eq in E. subst event_type0. cbn [orb].
    destruct (active_event_of now m name) as [event|].
    + rewrite get_setitem_same. now destruct (List.existsb _ rest).
    + now destruct (List.existsb _ rest).
  - apply String.eqb_neq in E. cbn [orb].
    destruct (active_event_of now m event_type0) as [event|];
      [|reflexivity].
    now rewrite (get_setitem_other _ _ _ _ E).
Qed.

(** X14.  [active_events(event_types)] maps a name to an event exactly
    when the name was asked for, the trait map has a trait under it and
    that trait has an active event, and then to that active event; names
    that were not asked for, unknown names and idle traits have no
    entry. *)
Theorem active_events_lookup
  (now : Z) (m : EventMediaManager) (event_types : list string)
  (name : string) :
  OrderedDict.get name (active_events now m event_types []) =
  if List.existsb (String.eqb name) event_types
  then active_event_of now m name
  else None.
Proof.
  rewrite active_events_get.
  destruct (List.existsb _ event_types); [|reflexivity].
  now destruct (active_event_of now m name).
Qed.

Lemma active_events_idle now m event_types : forall acc,
  (forall name, List.In name event_types -> active_event_of now m name = None) ->
  active_events now m event_types acc = acc.
Proof.
  induction event_types as [|event_type0 rest IH]; intros acc Hall;
    [reflexivity|].
  rewrite active_events_step, (Hall event_type0) by now left.
  apply IH. intros name Hin. apply Hall. now right.
Qed.

Lemma active_events_nonempty now m event_types : forall acc,
  acc <> [] -> active_events now m event_types acc <> [].
Proof.
  induction event_types as [|event_type0 rest IH]; intros acc Hacc;
    [exact Hacc|].
  rewrite active_events_step. apply IH.
  destruct (active_event_of now m event_type0); [|exact Hacc].
  apply setitem_nonempty.
Qed.

Lemma active_events_empty now m event_types :
  active_events now m event_types [] = [] ->
  forall name, List.In name event_types -> active_event_of now m name = None.
Proof.
  induction event_types as [|event_type0 rest IH]; intros He name Hin;
    [destruct Hin|].
  rewrite active_events_step in He.
  destruct (active_event_of now m event_type0) as [event|] eqn:Ha.
  - exfalso. revert He. apply active_events_nonempty, setitem_nonempty.
  - destruct Hin as [<-|Hin]; [exact Ha | now apply IH].
Qed.

Lemma wf_in_get {V : Type} key (v : V) (d : OrderedDict.t V) :
  OrderedDict.wf d -> List.In (key, v) d -> OrderedDict.get key d = Some v.
Proof.
  unfold OrderedDict.wf.
  induction d as [|[k w] rest IH]; intros Hd Hin; [destruct Hin|].
  inversion Hd as [|? ? Hk Hrest]; subst. simpl.
  destruct Hin as [Heq|Hin].
  - injection Heq as -> ->. now rewrite String.eqb_refl.
  - destruct (String.eqb key k) eqn:E; [|now apply IH].
    apply String.eqb_eq in E. subst k. exfalso. apply Hk.
    change key with (fst (key, v)). now apply List.in_map.
Qed.

Lemma get_in {V : Type} key (v : V) (d : OrderedDict.t V) :
  OrderedDict.get key d = Some v -> List.In (key, v) d.
Proof.
  induction d as [|[k w] rest IH]; simpl; [discriminate|].
  destruct (String.eqb key k) eqn:E.
  - apply String.eqb_eq in E. intros H. injection H as ->. subst. now left.
  - intros H. right. now apply IH.
Qed.

(** X15.  On a trait map that holds each name once, [active_event_trait]
    returns absent exactly when [active_events], asked for all the names
    of the trait map, returns an empty dictionary. *)
Theorem no_active_trait_iff_no_active_events
  (now : Z) (m : EventMediaManager) :
  OrderedDict.wf (_event_trait_map m) ->
  active_event_trait now m = None <->
  active_events now m (OrderedDict.keys (_event_trait_map m)) [] = [].
Proof.
  intros Hwf. unfold active_event_trait.
  pose proof (active_event_trait_loop_start now
                (OrderedDict.values (_event_trait_map m))) as Hloop.
  split.
  - intros Hn. rewrite Hn in Hloop. apply active_events_idle.
    intros name _. unfold active_event_of.
    destruct (OrderedDict.get name (_event_trait_map m)) as [trait|] eqn:G;
      [|reflexivity].
    assert (Hin : List.In trait (OrderedDict.values (_event_trait_map m))).
    { apply get_in in G. change trait with (snd (name, trait)).
      now apply List.in_map. }
    destruct (active_event now trait) as [event|] eqn:Ha; [|reflexivity].
    exfalso.
    assert (Hf : List.In trait
                   (List.filter (is_active now)
                      (OrderedDict.values (_event_trait_map m)))).
    { apply List.filter_In. split; [exact Hin|].
      unfold is_active. now rewrite Ha. }
    rewrite Hloop in Hf. destruct Hf.
  - intros He.
    destruct (active_event_trait_loop now _ None) as [t|]; [|reflexivity].
    exfalso. destruct Hloop as [Hin _]. apply List.filter_In in Hin.
    destruct Hin as [Hin Hact]. unfold OrderedDict.values in Hin.
    apply List.in_map_iff in Hin. destruct Hin as ([name trait] & Hs & Hin).
    simpl in Hs. subst trait.
    pose proof (active_events_empty now m _ He name) as Hnone.
    unfold active_event_of in Hnone.
    rewrite (wf_in_get _ _ _ Hwf Hin) in Hnone.
    unfold is_active in Hact.
    rewrite Hnone in Hact; [discriminate|].
    change name with (fst (name, t)). now apply List.in_map.
Qed.

(** Both views of the sample camera with two running events, while they
    run and after they have expired. *)
Lemma no_active_trait_iff_no_active_events_witness :
  active_event_trait 101 Fixtures.busy_camera = None /\
  active_events 101 Fixtures.busy_camera
    (OrderedDict.keys (_event_trait_map Fixtures.busy_camera)) [] = [].
Proof.
  assert (Hwf : OrderedDict.wf (_event_trait_map Fixtures.busy_camera))
    by (vm_compute; repeat constructor; simpl; intuition discriminate).
  split; [reflexivity|].
  apply (proj1 (no_active_trait_iff_no_active_events 101 Fixtures.busy_camera
                  Hwf)).
  reflexivity.
Defined.

(* ================================================================== *)
(** ** Ties between active traits *)

Lemma active_event_trait_loop_first now traits : forall current,
  is_active now current = true ->
  exists t,
    active_event_trait_loop now traits (Some current) = Some t /\
    ((t = current /\
      List.Forall (fun t' => expiry t' <= expiry current)
        (List.filter (is_active now) traits)) \/
     (exists before after,
        List.filter (is_active now) traits = before ++ t :: after /\
        expiry current < expiry t /\
        List.Forall (fun t' => expiry t' < expiry t) before /\
        List.Forall (fun t' => expiry t' <= expiry t) after)).
Proof.
  induction traits as [|trait rest IH]; intros current Hc.
  - exists current. split; [reflexivity|]. left. split; [reflexivity|].
    constructor.
  - cbn [active_event_trait_loop List.filter].
    destruct (is_active now trait) eqn:Ht.
    + destruct (is_active_last_event _ _ Ht) as [event He].
      destruct (is_active_last_event _ _ Hc) as [cevent Hce].
      pose proof Ht as Ha. unfold is_active in Ha.
      destruct (active_event now trait) as [ev|]; [clear Ha|discriminate].
      rewrite He, Hce.
      destruct (expires_at event >? expires_at cevent) eqn:C.
      * rewrite Z.gtb_ltb in C. apply Z.ltb_lt in C.
        assert (Hlt : expiry current < expiry trait)
          by (unfold expiry; now rewrite He, Hce).
        destruct (IH trait Ht) as (t & Hr & [[-> Hall]|Hex]).
        -- exists trait. split; [exact Hr|]. right.
           exists [], (List.filter (is_active now) rest).
           split; [reflexivity|]. split; [exact Hlt|].
           split; [constructor | exact Hall].
        -- destruct Hex as (before & after & Hf & Hlt' & Hb & Hafter).
           exists t. split; [exact Hr|]. right.
           exists (trait :: before), after. rewrite Hf.
           split; [reflexivity|]. split; [lia|].
           split; [constructor; [exact Hlt' | exact Hb] | exact Hafter].
      * rewrite Z.gtb_ltb in C. apply Z.ltb_ge in C.
        assert (Hle : expiry trait <= expiry current)
          by (unfold expiry; now rewrite He, Hce).
        destruct (IH current Hc) as (t & Hr & [[-> Hall]|Hex]).
        -- exists current. split; [exact Hr|]. left.
           split; [reflexivity|]. constructor; [exact Hle | exact Hall].
        -- destruct Hex as (before & after & Hf & Hlt' & Hb & Hafter).
           exists t. split; [exact Hr|]. right.
           exists (trait :: before), after. rewrite Hf.
           split; [reflexivity|]. split; [exact Hlt'|].
           split; [constructor; [lia | exact Hb] | exact Hafter].
    + unfold is_active in Ht.
      destruct (active_event now trait); [discriminate|].
      apply IH. exact Hc.
Qed.

(** X16.  Among active traits whose current events expire at the same,
    latest instant, [active_event_trait] returns the one that comes first
    in the trait map: every active trait before the returned one expires
    strictly earlier, every active trait after it expires no later. *)
Theorem active_event_trait_first_of_latest
  (now : Z) (m : EventMediaManager) :
  match active_event_trait now m with
  | None => active_traits now m = []
  | Some t =>
      exists before after,
        active_traits now m = before ++ t :: after /\
        List.Forall (fun t' => expiry t' < expiry t) before /\
        List.Forall (fun t' => expiry t' <= expiry t) after
  end.
Proof.
  unfold active_event_trait, active_traits.
  induction (OrderedDict.values (_event_trait_map m)) as [|trait rest IH];
    [reflexivity|].
  cbn [active_event_trait_loop List.filter].
  destruct (is_active now trait) eqn:Ht.
  - destruct (active_event_trait_loop_first now rest trait Ht)
      as (t & Hr & [[-> Hall]|Hex]).
    + unfold is_active in Ht.
      destruct (active_event now trait); [|discriminate].
      rewrite Hr. exists [], (List.filter (is_active now) rest).
      split; [reflexivity|]. split; [constructor | exact Hall].
    + destruct Hex as (before & after & Hf & Hlt & Hb & Hafter).
      unfold is_active in Ht.
      destruct (active_event now trait); [|discriminate].
      rewrite Hr. exists (trait :: before), after. rewrite Hf.
      split; [reflexivity|].
      split; [constructor; [exact Hlt | exact Hb] | exact Hafter].
  - unfold is_active in Ht.
    destruct (active_event now trait); [discriminate | exact IH].
Qed.

(* ================================================================== *)
(** ** From ingestion to the listing and the traits *)

Lemma stored_event_is_listed
  (m : EventMediaManager) (event_name : string) (event : ImageEventBase) :
  OrderedDict.contains event_name (_event_trait_map m) = true ->
  1 <= event_cache_size (_cache_policy m) ->
  within_bound m ->
  let m' := snd (handle_items m [(event_name, event)]) in
  OrderedDict.get (event_id event) (_data m') = Some event /\
  List.In event (events m').
Proof.
  intros Hsup Hs Hb. apply contains_get in Hsup. destruct Hsup as [trait Ht].
  cbv zeta. cbn [handle_items].
  rewrite (handle_item_supported _ _ _ _ Ht). cbn [snd].
  set (m' := mkEventMediaManager _ _ _).
  assert (Hg : OrderedDict.get (event_id event) (_data m') = Some event).
  { unfold m'. cbn [_data].
    destruct (OrderedDict.contains (event_id event) (_data m)) eqn:Hc.
    - rewrite cache_after_store_merge by assumption.
      now apply get_replace_same.
    - now destruct (cache_after_store_new _ event _ Hc Hs) as (_ & Hg & _). }
  split; [exact Hg|].
  unfold events.
  eapply Permutation_in;
    [symmetry; apply sort_by_timestamp_desc_permutation|].
  apply get_in in Hg. change event with (snd (event_id event, event)).
  now apply List.in_map.
Qed.

(** X17.  The last event of a message, when it is of a supported trait
    and the message is ingested into a cache within its bound that has
    room for at least one event, can be looked up under its event id and
    is listed by [events()] when the call returns, whatever events the
    message carries before it.  (Earlier events of the same message may
    have been evicted again by then.) *)
Theorem last_ingested_event_is_listed
  (m : EventMediaManager) (before : OrderedDict.t ImageEventBase)
  (event_name : string) (event : ImageEventBase) :
  OrderedDict.contains event_name (_event_trait_map m) = true ->
  1 <= event_cache_size (_cache_policy m) ->
  within_bound m ->
  let m' :=
    snd (async_handle_events m
           (mkEventMessage (Some (before ++ [(event_name, event)])))) in
  OrderedDict.get (event_id event) (_data m') = Some event /\
  List.In event (events m').
Proof.
  intros Hsup Hs Hb. cbv zeta.
  rewrite async_handle_events_items. cbn [resource_update_events].
  rewrite handle_items_app.
  destruct (handle_items_effect before m) as (_ & Hp & Hk & Hl).
  apply stored_event_is_listed.
  - now rewrite Hk.
  - now rewrite Hp.
  - unfold within_bound in *. rewrite Hp. lia.
Qed.

(** A message with a motion event and a person event for a cache of one
    slot: the person event, the last of the message, is the one listed. *)
Lemma last_ingested_event_is_listed_witness :
  let m :=
    manager (step Fixtures.reliable (new_world Fixtures.camera)
               (SetEventCacheSize 1)) in
  let m' :=
    snd (async_handle_events m
           (mkEventMessage
              (Some ([(Fixtures.MOTION, Fixtures.event_B)]
                       ++ [(Fixtures.PERSON, Fixtures.event_C)])))) in
  OrderedDict.get "C" (_data m') = Some Fixtures.event_C /\
  List.In Fixtures.event_C (events m').
Proof.
  intros m.
  apply (last_ingested_event_is_listed m
           [(Fixtures.MOTION, Fixtures.event_B)] Fixtures.PERSON
           Fixtures.event_C).
  - reflexivity.
  - vm_compute. discriminate.
  - unfold within_bound. vm_compute. discriminate.
Defined.



